(** * Progress Tracker: the tracker state machine and the dataset codec

    A shallow embedding of [src/scr/App.tsx] and [src/scr/types.ts], and
    the properties of its handlers.

    - JavaScript strings are sequences of UTF-16 code units ([jsstring]).
    - The counters and instants of a tracker are JavaScript numbers that
      hold integers; they are modelled by [Z], with [2^1024] standing for
      [Infinity].  A number is a double: [current + 1], [current - 1],
      the result of [parseInt] and an integer read by [JSON.parse] are
      the exact results as doubles ([Number_of]), which is the exact
      result up to [2^53] and not always beyond.  The digits written for
      a number are those of the code up to [2^53]; the properties that
      depend on them say so.
    - [Date.now()] and [Math.random()] are read from an explicit [World]
      that every handler threads.
    - The React state of [App] is a record [AppState]; a handler is a
      function from the state to the next state.  The two persisted slots
      hold JavaScript values ([value]), because [handleImport] stores
      whatever [JSON.parse] produced; the engine handlers read the active
      slot at its TypeScript type through [viewActive].
    - [JSON.parse] and [JSON.stringify] (with the two-space gap of
      [handleExport] and with no gap as in [usePersistedState]) are
      modelled on code units, following the ECMAScript grammar and
      serialization.
    - Arrays are lists: the limits of memory, and with them the greatest
      length of a JavaScript array, are not modelled. *)

From Stdlib Require Import ZArith NArith List Bool Lia String Ascii.
Import ListNotations.

#[local] Set Warnings "-register-all".
Local Open Scope Z_scope.

(** ** JavaScript strings *)

Definition jsstring := list N.

(** An ASCII literal of the source as code units. *)
Definition lit (s : string) : jsstring :=
  map N_of_ascii (list_ascii_of_string s).

Definition jsstring_eqb (a b : jsstring) : bool :=
  if list_eq_dec N.eq_dec a b then true else false.


(** *** Numbers to text

    [Number.prototype.toString(radix)] on an integer: the digits in the
    radix, most significant first, letters in lower case, and a leading
    minus sign for a negative number. *)

Definition digit_char (d : N) : N :=
  if (d <? 10)%N then (48 + d)%N else (87 + d)%N.

Fixpoint digits_fuel (fuel : nat) (radix n : N) (acc : jsstring) : jsstring :=
  match fuel with
  | O => acc
  | S f =>
      let acc' := digit_char (n mod radix) :: acc in
      if (n / radix =? 0)%N then acc' else digits_fuel f radix (n / radix) acc'
  end.

Definition N_toString (radix n : N) : jsstring :=
  digits_fuel (S (N.to_nat (N.log2 n))) radix n [].

Definition Z_toString (radix : N) (z : Z) : jsstring :=
  if z <? 0 then 45%N :: N_toString radix (Z.abs_N z)
  else N_toString radix (Z.to_N z).

(** *** White space and [trim]

    ECMAScript WhiteSpace and LineTerminator code points, all of which are
    single code units. *)

Definition isWhiteSpace (c : N) : bool :=
  ((9 <=? c) && (c <=? 13) || (c =? 32) || (c =? 160) || (c =? 5760)
   || (8192 <=? c) && (c <=? 8202) || (c =? 8232) || (c =? 8233)
   || (c =? 8239) || (c =? 8287) || (c =? 12288) || (c =? 65279))%N.

Fixpoint trimStart (s : jsstring) : jsstring :=
  match s with
  | c :: r => if isWhiteSpace c then trimStart r else s
  | [] => []
  end.

Definition trimEnd (s : jsstring) : jsstring := rev (trimStart (rev s)).

Definition trim (s : jsstring) : jsstring := trimEnd (trimStart s).

(** *** Numbers that hold integers

    A number is a double.  An integer of magnitude up to [2^53] is one,
    and so is a larger integer that fits in 53 significant bits, up to
    the largest double, [(2^53 - 1) * 2^971].  [Infinity] is modelled by
    [infinity = 2^1024], which is above every double, and [-Infinity] by
    its opposite.

    [round53 z] keeps the 53 leading bits of the integer [z], rounding to
    the nearest, a tie going to the even significand.  [Number_of z] is
    the number that the integer [z] is as a double: the rounded integer,
    or an infinity when that is beyond the doubles. *)

Definition infinity : Z := 2 ^ 1024.

Definition round53 (z : Z) : Z :=
  let a := Z.abs z in
  let e := Z.log2 a - 52 in
  if e <=? 0 then z
  else
    let q := a / 2 ^ e in
    let r := a mod 2 ^ e in
    let half := 2 ^ (e - 1) in
    let q' := if (half <? r) || ((r =? half) && Z.odd q) then q + 1 else q in
    Z.sgn z * (q' * 2 ^ e).

Definition Number_of (z : Z) : Z :=
  let r := round53 z in
  if infinity <=? Z.abs r then Z.sgn r * infinity else r.

(** [x + y] and [x - y]. *)
Definition Number_add (x y : Z) : Z := Number_of (x + y).
Definition Number_sub (x y : Z) : Z := Number_of (x - y).

(** The number [m / 10^p] is finite when its magnitude is below
    [2^1024 - 2^970], from where on the nearest double is an infinity. *)
Definition number_is_finite (m : Z) (p : N) : bool :=
  Z.abs m <? (2 ^ 1024 - 2 ^ 970) * 10 ^ Z.of_N p.

(** An integer that is a double and is finite. *)
Definition finite_double (z : Z) : Prop :=
  Number_of z = z /\ number_is_finite z 0 = true.

(** [String(x)] for a number that holds an integer or is infinite; the
    digits are those that the code writes for a number up to [2^53]. *)
Definition Number_toString (z : Z) : jsstring :=
  if infinity <=? z then lit "Infinity"
  else if z <=? - infinity then lit "-Infinity"
  else Z_toString 10 z.

(** *** [parseInt(string)] with no radix argument

    Leading white space is skipped, one sign is read, a [0x]/[0X] prefix
    selects radix 16, and the longest run of digits of the radix is the
    value, as a double: a text of more than 308 digits gives [Infinity].
    No digit at all gives [NaN], modelled by [None]. *)

Definition digit_value (radix c : N) : option N :=
  let v :=
    if ((48 <=? c) && (c <=? 57))%N then Some (c - 48)%N
    else if ((97 <=? c) && (c <=? 122))%N then Some (c - 87)%N
    else if ((65 <=? c) && (c <=? 90))%N then Some (c - 55)%N
    else None in
  match v with
  | Some d => if (d <? radix)%N then Some d else None
  | None => None
  end.

Fixpoint read_digits (radix : N) (s : jsstring) (acc : option N) : option N :=
  match s with
  | c :: r =>
      match digit_value radix c with
      | Some d =>
          read_digits radix r
            (Some (match acc with Some a => a * radix + d | None => d end)%N)
      | None => acc
      end
  | [] => acc
  end.

Definition parseInt (input : jsstring) : option Z :=
  let s := trimStart input in
  let '(negative, s) :=
    match s with
    | 45%N :: r => (true, r)
    | 43%N :: r => (false, r)
    | _ => (false, s)
    end in
  let '(radix, s) :=
    match s with
    | 48%N :: x :: r =>
        if ((x =? 120) || (x =? 88))%N then (16%N, r) else (10%N, s)
    | _ => (10%N, s)
    end in
  match read_digits radix s None with
  | Some n => Some (Number_of (if negative then - Z.of_N n else Z.of_N n))
  | None => None
  end.

(** ** The world: clock and random source *)

Record World := mkWorld {
  clock : nat -> Z;          (* the result of the n-th call of Date.now() *)
  random36 : nat -> jsstring;
    (* the n-th value of Math.random().toString(36).slice(2, 10) *)
  ticks : nat;               (* calls of Date.now() so far *)
  draws : nat                (* calls of Math.random() so far *)
}.

(** A computation reads the world and either returns, or stops because a
    state value is outside its TypeScript type ([None]); the latter can
    only follow the import of a document of another shape, and such runs
    are not modelled further. *)
Definition M (A : Type) : Type := World -> option (A * World).

Definition ret {A} (a : A) : M A := fun w => Some (a, w).

Definition bind {A B} (m : M A) (k : A -> M B) : M B :=
  fun w => match m w with
           | Some (a, w') => k a w'
           | None => None
           end.

Definition illTyped {A} : M A := fun _ => None.

Notation "x <- m ;; k" := (bind m (fun x => k))
  (at level 61, m at next level, right associativity).

Definition Date_now : M Z :=
  fun w => Some (clock w (ticks w),
                 mkWorld (clock w) (random36 w) (S (ticks w)) (draws w)).

Definition Math_random36 : M jsstring :=
  fun w => Some (random36 w (draws w),
                 mkWorld (clock w) (random36 w) (ticks w) (S (draws w))).

(** [uid]: eight base-36 digits of a random number followed by the clock
    in base 36. *)
Definition uid : M jsstring :=
  r <- Math_random36 ;;
  n <- Date_now ;;
  ret (r ++ Z_toString 36 n).

Definition option_bind {A B} (o : option A) (k : A -> option B) : option B :=
  match o with Some a => k a | None => None end.

Notation "'let?' x := o 'in' k" := (option_bind o (fun x => k))
  (at level 10, x pattern, o at level 100, k at level 200).

(** ** JavaScript values

    The values [JSON.parse] can produce, and [undefined] (the result of
    reading a property that an object does not have).

    [Num m p] is the number written [m / 10^p].  Integers are [Num z 0],
    and [Num infinity 0] is [Infinity]. *)

Inductive value : Type :=
| Undefined
| Null
| Bool (b : bool)
| Num (m : Z) (p : N)
| Str (s : jsstring)
| Arr (items : list value)
| Obj (props : list (jsstring * value)).

(** The double nearest to [m / 10^p] is zero exactly when [m] is zero or
    the magnitude is at most half the smallest subnormal, [2^-1075]. *)
Definition number_is_zero (m : Z) (p : N) : bool :=
  (m =? 0) || (Z.abs m * 2 ^ 1075 <=? 10 ^ Z.of_N p).

(** [ToBoolean]: what [!x] and [x || y] test. *)
Definition ToBoolean (v : value) : bool :=
  match v with
  | Undefined | Null => false
  | Bool b => b
  | Num m p => negb (number_is_zero m p)
  | Str s => match s with [] => false | _ => true end
  | Arr _ | Obj _ => true
  end.

(** [x ?? y]. *)
Definition nullish (v : value) : bool :=
  match v with
  | Undefined | Null => true
  | _ => false
  end.

Definition coalesce (v d : value) : value := if nullish v then d else v.

Fixpoint lookup (k : jsstring) (props : list (jsstring * value)) : option value :=
  match props with
  | (k', v) :: r => if jsstring_eqb k k' then Some v else lookup k r
  | [] => None
  end.

(** [v.k] for a key [k] that no built-in prototype defines (the code reads
    only [version], [activeTracker] and [history] this way): the own
    property of an object, [undefined] when there is none or when [v] is a
    primitive or an array, and a TypeError ([None]) on [null] and
    [undefined]. *)
Definition Get (v : value) (k : jsstring) : option value :=
  match v with
  | Undefined | Null => None
  | Obj props => Some (match lookup k props with Some x => x | None => Undefined end)
  | _ => Some Undefined
  end.

(** ** [JSON.parse]

    The ECMAScript JSON grammar on code units.  [None] is a SyntaxError. *)

Definition is_json_ws (c : N) : bool :=
  ((c =? 32) || (c =? 9) || (c =? 10) || (c =? 13))%N.

Fixpoint skip_ws (s : jsstring) : jsstring :=
  match s with
  | c :: r => if is_json_ws c then skip_ws r else s
  | [] => []
  end.

Fixpoint strip_prefix (p s : jsstring) : option jsstring :=
  match p, s with
  | [], _ => Some s
  | a :: p', b :: s' => if (a =? b)%N then strip_prefix p' s' else None
  | _ :: _, [] => None
  end.

Definition is_digit (c : N) : bool := ((48 <=? c) && (c <=? 57))%N.

(** The leading decimal digits of [s] and what follows them. *)
Fixpoint span_digits (s : jsstring) : jsstring * jsstring :=
  match s with
  | c :: r =>
      if is_digit c then let '(ds, rest) := span_digits r in (c :: ds, rest)
      else ([], s)
  | [] => ([], [])
  end.

Definition digits_value (ds : jsstring) : N :=
  fold_left (fun a c => a * 10 + (c - 48))%N ds 0%N.

(** [m / 10^p] without trailing zeros in the fraction. *)
Fixpoint strip_zeros (fuel : nat) (m : Z) (p : N) : Z * N :=
  match fuel with
  | O => (m, p)
  | S f =>
      if ((p =? 0)%N || negb (m mod 10 =? 0)) then (m, p)
      else strip_zeros f (m / 10) (N.pred p)
  end.

(** The number [m * 10^(-scale)]: an integer as a double, anything else
    as the decimal fraction that was written. *)
Definition make_number (digits : nat) (m : Z) (scale : Z) : value :=
  if m =? 0 then Num 0 0
  else if scale <=? 0 then Num (Number_of (m * 10 ^ (- scale))) 0
  else
    let '(m', p') := strip_zeros digits m (Z.to_N scale) in
    if (p' =? 0)%N then Num (Number_of m') 0 else Num m' p'.

(** The rest of [s] after the code unit [c], when [s] starts with it. *)
Definition eat (c : N) (s : jsstring) : option jsstring :=
  match s with
  | x :: r => if (x =? c)%N then Some r else None
  | [] => None
  end.

Definition some_digits (s : jsstring) : option (jsstring * jsstring) :=
  match span_digits s with
  | ([], _) => None
  | (ds, r) => Some (ds, r)
  end.

Definition parse_number (s : jsstring) : option (value * jsstring) :=
  let '(negative, s) :=
    match eat 45 s with
    | Some r => (true, r)
    | None => (false, s)
    end in
  let? (int, s) :=
    match eat 48 s with
    | Some r => Some ([48%N], r)
    | None => some_digits s
    end in
  let? (frac, s) :=
    match eat 46 s with
    | Some r => some_digits r
    | None => Some ([], s)
    end in
  let? (exponent, s) :=
    match (match eat 101 s with Some r => Some r | None => eat 69 s end) with
    | Some r =>
        let '(minus, r) :=
          match eat 45 r with
          | Some r' => (true, r')
          | None => match eat 43 r with
                    | Some r' => (false, r')
                    | None => (false, r)
                    end
          end in
        let? (ds, r') := some_digits r in
        Some (if minus then - Z.of_N (digits_value ds)
              else Z.of_N (digits_value ds), r')
    | None => Some (0, s)
    end in
  let m := Z.of_N (digits_value (int ++ frac)) in
  Some (make_number (List.length (int ++ frac)) (if negative then - m else m)
          (Z.of_nat (List.length frac) - exponent), s).

Definition hex4 (a b c d : N) : option N :=
  let? a := digit_value 16 a in
  let? b := digit_value 16 b in
  let? c := digit_value 16 c in
  let? d := digit_value 16 d in
  Some (((a * 16 + b) * 16 + c) * 16 + d)%N.

Definition unescape (e : N) : option N :=
  if (e =? 34)%N then Some 34%N
  else if (e =? 92)%N then Some 92%N
  else if (e =? 47)%N then Some 47%N
  else if (e =? 98)%N then Some 8%N
  else if (e =? 102)%N then Some 12%N
  else if (e =? 110)%N then Some 10%N
  else if (e =? 114)%N then Some 13%N
  else if (e =? 116)%N then Some 9%N
  else None.

(** The characters of a string up to its closing quote. *)
Fixpoint parse_chars (s : jsstring) : option (jsstring * jsstring) :=
  match s with
  | [] => None
  | c :: r =>
      if (c =? 34)%N then Some ([], r)
      else if (c =? 92)%N then
        match r with
        | e :: r1 =>
            if (e =? 117)%N then
              match r1 with
              | h1 :: h2 :: h3 :: h4 :: r2 =>
                  let? u := hex4 h1 h2 h3 h4 in
                  let? (str, rest) := parse_chars r2 in
                  Some (u :: str, rest)
              | _ => None
              end
            else
              let? u := unescape e in
              let? (str, rest) := parse_chars r1 in
              Some (u :: str, rest)
        | [] => None
        end
      else if (c <? 32)%N then None
      else
        let? (str, rest) := parse_chars r in
        Some (c :: str, rest)
  end.

(** Defining a property: a later member with the same name replaces the
    value of the earlier one in place.  (ECMAScript lists integer-like
    names first when it enumerates an object; this model keeps the order
    of first appearance.) *)
Fixpoint define_prop (k : jsstring) (v : value) (props : list (jsstring * value))
  : list (jsstring * value) :=
  match props with
  | [] => [(k, v)]
  | (k', v') :: r =>
      if jsstring_eqb k k' then (k', v) :: r else (k', v') :: define_prop k v r
  end.

Definition build_object (members : list (jsstring * value)) : value :=
  Obj (fold_left (fun o kv => define_prop (fst kv) (snd kv) o) members []).

Fixpoint parse_value (fuel : nat) (s : jsstring) : option (value * jsstring) :=
  match fuel with
  | O => None
  | S fuel =>
      match skip_ws s with
      | [] => None
      | c :: r =>
          if (c =? 123)%N then
            match eat 125 (skip_ws r) with
            | Some r' => Some (Obj [], r')
            | None => let? (ms, r') := parse_members fuel r in
                      Some (build_object ms, r')
            end
          else if (c =? 91)%N then
            match eat 93 (skip_ws r) with
            | Some r' => Some (Arr [], r')
            | None => let? (vs, r') := parse_elements fuel r in
                      Some (Arr vs, r')
            end
          else if (c =? 34)%N then
            let? (str, r') := parse_chars r in Some (Str str, r')
          else if (c =? 116)%N then
            let? r' := strip_prefix (lit "rue") r in Some (Bool true, r')
          else if (c =? 102)%N then
            let? r' := strip_prefix (lit "alse") r in Some (Bool false, r')
          else if (c =? 110)%N then
            let? r' := strip_prefix (lit "ull") r in Some (Null, r')
          else parse_number (c :: r)
      end
  end
with parse_elements (fuel : nat) (s : jsstring) : option (list value * jsstring) :=
  match fuel with
  | O => None
  | S fuel =>
      let? (v, r) := parse_value fuel s in
      match eat 44 (skip_ws r) with
      | Some r' => let? (vs, r'') := parse_elements fuel r' in Some (v :: vs, r'')
      | None => let? r' := eat 93 (skip_ws r) in Some ([v], r')
      end
  end
with parse_members (fuel : nat) (s : jsstring)
  : option (list (jsstring * value) * jsstring) :=
  match fuel with
  | O => None
  | S fuel =>
      let? r := eat 34 (skip_ws s) in
      let? (k, r) := parse_chars r in
      let? r := eat 58 (skip_ws r) in
      let? (v, r) := parse_value fuel r in
      match eat 44 (skip_ws r) with
      | Some r' => let? (ms, r'') := parse_members fuel r' in Some ((k, v) :: ms, r'')
      | None => let? r' := eat 125 (skip_ws r) in Some ([(k, v)], r')
      end
  end.

Definition JSON_parse (text : jsstring) : option value :=
  let? (v, r) := parse_value (S (List.length text)) text in
  match skip_ws r with
  | [] => Some v
  | _ => None
  end.

(** ** [JSON.stringify(value, null, space)] *)

Definition UnicodeEscape (c : N) : jsstring :=
  [92; 117; digit_char (c / 4096); digit_char ((c / 256) mod 16);
   digit_char ((c / 16) mod 16); digit_char (c mod 16)]%N.

Definition is_leading_surrogate (c : N) : bool := ((55296 <=? c) && (c <=? 56319))%N.
Definition is_trailing_surrogate (c : N) : bool := ((56320 <=? c) && (c <=? 57343))%N.

Fixpoint quote_chars (s : jsstring) : jsstring :=
  match s with
  | [] => []
  | c :: r =>
      if (c =? 8)%N then 92%N :: 98%N :: quote_chars r
      else if (c =? 9)%N then 92%N :: 116%N :: quote_chars r
      else if (c =? 10)%N then 92%N :: 110%N :: quote_chars r
      else if (c =? 12)%N then 92%N :: 102%N :: quote_chars r
      else if (c =? 13)%N then 92%N :: 114%N :: quote_chars r
      else if (c =? 34)%N then 92%N :: 34%N :: quote_chars r
      else if (c =? 92)%N then 92%N :: 92%N :: quote_chars r
      else if (c <? 32)%N then UnicodeEscape c ++ quote_chars r
      else if is_leading_surrogate c then
        match r with
        | d :: r' =>
            if is_trailing_surrogate d then c :: d :: quote_chars r'
            else UnicodeEscape c ++ quote_chars r
        | [] => UnicodeEscape c
        end
      else if is_trailing_surrogate c then UnicodeEscape c ++ quote_chars r
      else c :: quote_chars r
  end.

Definition QuoteJSONString (s : jsstring) : jsstring :=
  34%N :: quote_chars s ++ [34%N].

(** [Number::toString] of a finite number in positional notation, with
    every digit of the number.  (ECMAScript writes the shortest digits
    that read back as the same double, and switches to exponent notation
    outside [1e-6, 1e21); up to [2^53] an integer is written with all its
    digits, as here, and beyond that both texts read back as the same
    double.) *)
Definition number_text (m : Z) (p : N) : jsstring :=
  if (p =? 0)%N then Z_toString 10 m
  else
    let a := Z.abs_N m in
    let whole := N_toString 10 (a / 10 ^ p) in
    let part := N_toString 10 (a mod 10 ^ p) in
    (if m <? 0 then [45%N] else []) ++ whole ++ [46%N]
      ++ repeat 48%N (N.to_nat p - List.length part) ++ part.

(** The gap of [JSON.stringify(value, null, space)]: [space] spaces, ten
    at most; none when [space] is [0] or is not given. *)
Definition gap_of_space (space : nat) : jsstring := repeat 32%N (Nat.min space 10).

(** A line break and the indentation, or nothing when there is no gap. *)
Definition line (gap indent : jsstring) : jsstring :=
  match gap with
  | [] => []
  | _ => 10%N :: indent
  end.

(** What follows the colon of a property: a space, or nothing when there
    is no gap. *)
Definition colon_space (gap : jsstring) : jsstring :=
  match gap with
  | [] => []
  | _ => [32%N]
  end.

Fixpoint join (sep : jsstring) (parts : list jsstring) : jsstring :=
  match parts with
  | [] => []
  | [x] => x
  | x :: r => x ++ sep ++ join sep r
  end.

(** [SerializeJSONProperty] for a value that is not [undefined]; an
    [undefined] array element is written [null], an [undefined] property
    is left out, and a number that is not finite is written [null]. *)
Fixpoint serialize (gap indent : jsstring) (v : value) : jsstring :=
  let inner := indent ++ gap in
  let wrap (opening closing : N) (parts : list jsstring) : jsstring :=
    match parts with
    | [] => [opening; closing]
    | _ => opening :: line gap inner ++ join (44%N :: line gap inner) parts
             ++ line gap indent ++ [closing]
    end in
  match v with
  | Undefined | Null => lit "null"
  | Bool true => lit "true"
  | Bool false => lit "false"
  | Num m p => if number_is_finite m p then number_text m p else lit "null"
  | Str s => QuoteJSONString s
  | Arr items => wrap 91%N 93%N (map (serialize gap inner) items)
  | Obj props =>
      wrap 123%N 125%N
        ((fix members (l : list (jsstring * value)) : list jsstring :=
            match l with
            | [] => []
            | (k, x) :: r =>
                match x with
                | Undefined => members r
                | _ => (QuoteJSONString k ++ 58%N :: colon_space gap
                          ++ serialize gap inner x)
                         :: members r
                end
            end) props)
  end.

(** [JSON.stringify(v, null, space)], and [JSON.stringify(v)] for
    [space = 0]; [None] is the result [undefined]. *)
Definition JSON_stringify (v : value) (space : nat) : option jsstring :=
  match v with
  | Undefined => None
  | _ => Some (serialize (gap_of_space space) [] v)
  end.

(** *** Values that [JSON.stringify] and [JSON.parse] carry unchanged

    No [undefined], finite integers for numbers, and no repeated property
    name. *)

Fixpoint plain (v : value) : Prop :=
  match v with
  | Undefined => False
  | Null | Bool _ | Str _ => True
  | Num m p => p = 0%N /\ finite_double m
  | Arr items =>
      (fix all (l : list value) : Prop :=
         match l with
         | [] => True
         | x :: r => plain x /\ all r
         end) items
  | Obj props =>
      NoDup (map fst props) /\
      (fix all (l : list (jsstring * value)) : Prop :=
         match l with
         | [] => True
         | (_, x) :: r => plain x /\ all r
         end) props
  end.

(** A bound on the recursion depth [parse_value] needs for a value. *)
Fixpoint weight (v : value) : nat :=
  match v with
  | Arr items => S (list_sum (map (fun x => S (weight x)) items))
  | Obj props => S (list_sum (map (fun kv => S (weight (snd kv))) props))
  | _ => 1
  end.

(** Only JSON white space. *)
Definition blank (l : jsstring) : Prop := Forall (fun c => is_json_ws c = true) l.

(** What may follow a value in a serialized text: nothing, a comma, a
    line break or a closing bracket. *)
Definition follows (rest : jsstring) : Prop :=
  match rest with
  | [] => True
  | c :: _ => c = 44%N \/ c = 10%N \/ c = 93%N \/ c = 125%N
  end.

(** One property of a serialized object. *)
Definition member_text (gap inner : jsstring) (kv : jsstring * value) : jsstring :=
  QuoteJSONString (fst kv) ++ 58%N :: colon_space gap ++ serialize gap inner (snd kv).

(** The items of a serialized array or object, up to and including the
    closing bracket. *)
Definition block (gap inner indent : jsstring) (closing : N) (parts : list jsstring)
  : jsstring :=
  join (44%N :: line gap inner) parts ++ line gap indent ++ [closing].

(** ** The data model of [types.ts] *)

Inductive Action := created | increment | decrement | completed | archived.

Module LogEntry.
Record t := mk {
  id : jsstring;
  timestamp : Z;
  action : Action;
  detail : jsstring
}.
End LogEntry.

Module Tracker.
Record t := mk {
  id : jsstring;
  label : jsstring;
  target : Z;
  current : Z;
  createdAt : Z;
  completedAt : option Z;
  archivedAt : option Z;
  logs : list LogEntry.t
}.

Definition with_current (c : Z) (x : t) : t :=
  mk (id x) (label x) (target x) c (createdAt x) (completedAt x) (archivedAt x) (logs x).

Definition with_completedAt (c : option Z) (x : t) : t :=
  mk (id x) (label x) (target x) (current x) (createdAt x) c (archivedAt x) (logs x).

Definition with_archivedAt (a : option Z) (x : t) : t :=
  mk (id x) (label x) (target x) (current x) (createdAt x) (completedAt x) a (logs x).

Definition with_logs (l : list LogEntry.t) (x : t) : t :=
  mk (id x) (label x) (target x) (current x) (createdAt x) (completedAt x) (archivedAt x) l.
End Tracker.

(** *** Typed records as JavaScript objects

    The object a record is at run time: its properties in the order of the
    object literal that created it (spreading keeps that order). *)

Definition action_name (a : Action) : jsstring :=
  match a with
  | created => lit "created"
  | increment => lit "increment"
  | decrement => lit "decrement"
  | completed => lit "completed"
  | archived => lit "archived"
  end.

Definition of_nullable (o : option Z) : value :=
  match o with
  | Some z => Num z 0
  | None => Null
  end.

Definition of_LogEntry (e : LogEntry.t) : value :=
  Obj [ (lit "id", Str (LogEntry.id e));
        (lit "timestamp", Num (LogEntry.timestamp e) 0);
        (lit "action", Str (action_name (LogEntry.action e)));
        (lit "detail", Str (LogEntry.detail e)) ].

Definition of_Tracker (x : Tracker.t) : value :=
  Obj [ (lit "id", Str (Tracker.id x));
        (lit "label", Str (Tracker.label x));
        (lit "target", Num (Tracker.target x) 0);
        (lit "current", Num (Tracker.current x) 0);
        (lit "createdAt", Num (Tracker.createdAt x) 0);
        (lit "completedAt", of_nullable (Tracker.completedAt x));
        (lit "archivedAt", of_nullable (Tracker.archivedAt x));
        (lit "logs", Arr (map of_LogEntry (Tracker.logs x))) ].

(** The numbers of a tracker are finite (and doubles). *)
Definition finite_nullable (o : option Z) : Prop :=
  match o with
  | Some z => finite_double z
  | None => True
  end.

Definition finite_numbers (x : Tracker.t) : Prop :=
  finite_double (Tracker.target x) /\
  finite_double (Tracker.current x) /\
  finite_double (Tracker.createdAt x) /\
  finite_nullable (Tracker.completedAt x) /\
  finite_nullable (Tracker.archivedAt x) /\
  Forall (fun e => finite_double (LogEntry.timestamp e)) (Tracker.logs x).

(** Reading a value at a TypeScript type: [None] when it has another shape. *)

Definition action_of_name (s : jsstring) : option Action :=
  if jsstring_eqb s (lit "created") then Some created
  else if jsstring_eqb s (lit "increment") then Some increment
  else if jsstring_eqb s (lit "decrement") then Some decrement
  else if jsstring_eqb s (lit "completed") then Some completed
  else if jsstring_eqb s (lit "archived") then Some archived
  else None.

Definition to_string (v : value) : option jsstring :=
  match v with Str s => Some s | _ => None end.

Definition to_integer (v : value) : option Z :=
  match v with Num z 0%N => Some z | _ => None end.

Definition to_nullable (v : value) : option (option Z) :=
  match v with
  | Null => Some None
  | Num z 0%N => Some (Some z)
  | _ => None
  end.

(** The next property of an object, which must be named [k]. *)
Definition take (k : jsstring) (props : list (jsstring * value))
  : option (value * list (jsstring * value)) :=
  match props with
  | (k', v) :: r => if jsstring_eqb k k' then Some (v, r) else None
  | [] => None
  end.

Definition to_LogEntry (v : value) : option LogEntry.t :=
  match v with
  | Obj props =>
      let? (i, props) := take (lit "id") props in
      let? (ts, props) := take (lit "timestamp") props in
      let? (a, props) := take (lit "action") props in
      let? (d, props) := take (lit "detail") props in
      match props with
      | [] =>
          let? i := to_string i in
          let? ts := to_integer ts in
          let? a := option_bind (to_string a) action_of_name in
          let? d := to_string d in
          Some (LogEntry.mk i ts a d)
      | _ => None
      end
  | _ => None
  end.

Fixpoint to_list {A} (f : value -> option A) (vs : list value) : option (list A) :=
  match vs with
  | [] => Some []
  | v :: r =>
      let? a := f v in
      let? l := to_list f r in
      Some (a :: l)
  end.

Definition to_Tracker (v : value) : option Tracker.t :=
  match v with
  | Obj props =>
      let? (i, props) := take (lit "id") props in
      let? (l, props) := take (lit "label") props in
      let? (tg, props) := take (lit "target") props in
      let? (c, props) := take (lit "current") props in
      let? (cr, props) := take (lit "createdAt") props in
      let? (co, props) := take (lit "completedAt") props in
      let? (ar, props) := take (lit "archivedAt") props in
      let? (lg, props) := take (lit "logs") props in
      match props, lg with
      | [], Arr entries =>
          let? i := to_string i in
          let? l := to_string l in
          let? tg := to_integer tg in
          let? c := to_integer c in
          let? cr := to_integer cr in
          let? co := to_nullable co in
          let? ar := to_nullable ar in
          let? lg := to_list to_LogEntry entries in
          Some (Tracker.mk i l tg c cr co ar lg)
      | _, _ => None
      end
  | _ => None
  end.

(** ** The state of [App] *)

Inductive Tab := tab_tracker | tab_history.

Record AppState := mkApp {
  activeTracker : value;   (* usePersistedState('pt_active', null) *)
  history : value;         (* usePersistedState('pt_history', []) *)
  tab : Tab;
  logModal : value;
  showImport : bool;
  label : jsstring;        (* the create form *)
  targetStr : jsstring;
  error : jsstring         (* the state of ImportModal *)
}.

Definition setActiveTracker (v : value) (st : AppState) : AppState :=
  mkApp v (history st) (tab st) (logModal st) (showImport st) (label st)
        (targetStr st) (error st).

Definition setHistory (v : value) (st : AppState) : AppState :=
  mkApp (activeTracker st) v (tab st) (logModal st) (showImport st) (label st)
        (targetStr st) (error st).

Definition setTab (x : Tab) (st : AppState) : AppState :=
  mkApp (activeTracker st) (history st) x (logModal st) (showImport st) (label st)
        (targetStr st) (error st).

Definition setShowImport (b : bool) (st : AppState) : AppState :=
  mkApp (activeTracker st) (history st) (tab st) (logModal st) b (label st)
        (targetStr st) (error st).

Definition setLabel (s : jsstring) (st : AppState) : AppState :=
  mkApp (activeTracker st) (history st) (tab st) (logModal st) (showImport st) s
        (targetStr st) (error st).

Definition setTargetStr (s : jsstring) (st : AppState) : AppState :=
  mkApp (activeTracker st) (history st) (tab st) (logModal st) (showImport st)
        (label st) s (error st).

Definition setError (s : jsstring) (st : AppState) : AppState :=
  mkApp (activeTracker st) (history st) (tab st) (logModal st) (showImport st)
        (label st) (targetStr st) s.

(** How a handler sees the active slot: [!activeTracker] holds ([Empty]),
    or the slot is a [Tracker] as its type says ([Holds]), or it is some
    other truthy value ([Foreign]). *)
Inductive slot :=
| Empty
| Holds (x : Tracker.t)
| Foreign.

Definition viewActive (v : value) : slot :=
  if negb (ToBoolean v) then Empty
  else match to_Tracker v with
       | Some x => Holds x
       | None => Foreign
       end.

(** ** The tracker engine *)

Definition quote_mark : jsstring := [34%N].

(** [addLog]: a copy of the tracker with one entry appended to its log. *)
Definition addLog (tracker : Tracker.t) (a : Action) (d : jsstring) : M Tracker.t :=
  i <- uid ;;
  now <- Date_now ;;
  ret (Tracker.with_logs (Tracker.logs tracker ++ [LogEntry.mk i now a d]) tracker).

(** [`Progress: ${t.current}/${t.target}`] *)
Definition progress_detail (x : Tracker.t) : jsstring :=
  lit "Progress: " ++ Number_toString (Tracker.current x) ++ lit "/"
    ++ Number_toString (Tracker.target x).

(** [`Created "${t.label}" with target ${target}`] *)
Definition created_detail (l : jsstring) (tg : Z) : jsstring :=
  lit "Created " ++ quote_mark ++ l ++ quote_mark ++ lit " with target "
    ++ Number_toString tg.

(** [`Completed! 🎉`]: the emoji U+1F389 is a surrogate pair. *)
Definition completed_detail : jsstring :=
  lit "Completed! " ++ [55356%N; 57225%N].

Definition handleCreate (st : AppState) : M AppState :=
  match parseInt (targetStr st) with
  | None => ret st
  | Some tg =>
      if (tg =? 0) || (tg <? 1) then ret st
      else
        i <- uid ;;
        now <- Date_now ;;
        let l := match trim (label st) with [] => lit "Tracker" | s => s end in
        let x := Tracker.mk i l tg 0 now None None [] in
        x <- addLog x created (created_detail (Tracker.label x) tg) ;;
        ret (setTargetStr [] (setLabel [] (setActiveTracker (of_Tracker x) st)))
  end.

Definition handleIncrement (st : AppState) : M AppState :=
  match viewActive (activeTracker st) with
  | Empty => ret st
  | Foreign => illTyped
  | Holds a =>
      if Tracker.target a <=? Tracker.current a then ret st
      else
        let x := Tracker.with_current (Number_add (Tracker.current a) 1) a in
        x <- addLog x increment (progress_detail x) ;;
        if Tracker.target x <=? Tracker.current x then
          now <- Date_now ;;
          x <- addLog (Tracker.with_completedAt (Some now) x) completed
                 completed_detail ;;
          ret (setActiveTracker (of_Tracker x) st)
        else ret (setActiveTracker (of_Tracker x) st)
  end.

Definition handleDecrement (st : AppState) : M AppState :=
  match viewActive (activeTracker st) with
  | Empty => ret st
  | Foreign => illTyped
  | Holds a =>
      if Tracker.current a <=? 0 then ret st
      else
        let wasComplete := Tracker.target a <=? Tracker.current a in
        let x :=
          Tracker.with_completedAt
            (if wasComplete then None else Tracker.completedAt a)
            (Tracker.with_current (Number_sub (Tracker.current a) 1) a) in
        x <- addLog x decrement (progress_detail x) ;;
        ret (setActiveTracker (of_Tracker x) st)
  end.

Definition handleArchive (st : AppState) : M AppState :=
  match viewActive (activeTracker st) with
  | Empty => ret st
  | Foreign => illTyped
  | Holds a =>
      now <- Date_now ;;
      x <- addLog (Tracker.with_archivedAt (Some now) a) archived
             (lit "Tracker archived") ;;
      match history st with
      | Arr h => ret (setActiveTracker Null (setHistory (Arr (of_Tracker x :: h)) st))
      | _ => illTyped
      end
  end.

(** ** Export and import *)

(** [handleExport]: the text of the downloaded blob.  The state is not
    changed. *)
Definition handleExport (st : AppState) : option jsstring :=
  JSON_stringify
    (Obj [ (lit "version", Num 1 0);
           (lit "activeTracker", activeTracker st);
           (lit "history", history st) ]) 2.

Definition handleImport (data : value) (st : AppState) : option AppState :=
  let? a := Get data (lit "activeTracker") in
  let? h := Get data (lit "history") in
  Some (setTab tab_tracker
          (setShowImport false
             (setHistory (coalesce h (Arr [])) (setActiveTracker a st)))).

Definition invalid_file_message : jsstring :=
  lit "Invalid file. Please select a valid Progress Tracker export (.json).".

(** The body of [try { ... }] in [reader.onload]: [None] when anything in
    it throws. *)
Definition tryImport (text : jsstring) (st : AppState) : option AppState :=
  let? parsed := JSON_parse text in
  let? version := Get parsed (lit "version") in
  if negb (ToBoolean version) then None
  else
    let? a := Get parsed (lit "activeTracker") in
    if ToBoolean a then handleImport parsed st
    else
      let? h := Get parsed (lit "history") in
      if ToBoolean h then handleImport parsed st else None.

(** [processFile] once the file has been read as [text]. *)
Definition processFile (text : jsstring) (st : AppState) : AppState :=
  let st := setError [] st in
  match tryImport text st with
  | Some st' => st'
  | None => setError invalid_file_message st
  end.

(** The property [k] of a parsed document, [undefined] when the document
    has none (in particular when the document is not an object). *)
Definition field (doc : value) (k : jsstring) : value :=
  match Get doc k with
  | Some v => v
  | None => Undefined
  end.

(** The user is told that the import failed. *)
Definition importFailed (st' : AppState) : Prop :=
  error st' = invalid_file_message.

(** The document passes the check of [processFile]. *)
Definition passesValidation (doc : value) : Prop :=
  ToBoolean (field doc (lit "version")) = true /\
  (ToBoolean (field doc (lit "activeTracker")) = true \/
   ToBoolean (field doc (lit "history")) = true).

(** A property is there and is not [null]. *)
Definition presentNonNull (v : value) : Prop := v <> Undefined /\ v <> Null.

(** The active slot at its TypeScript type [Tracker | null]. *)
Definition of_active (a : option Tracker.t) : value :=
  match a with
  | Some x => of_Tracker x
  | None => Null
  end.

(** A JSON text written with apostrophes in place of double quotes. *)
Definition json (s : string) : jsstring :=
  map (fun c => if (c =? 39)%N then 34%N else c) (lit s).

(** Sequences of engine operations on one state. *)

Inductive Op := op_increment | op_decrement | op_archive.

Definition perform (o : Op) : AppState -> M AppState :=
  match o with
  | op_increment => handleIncrement
  | op_decrement => handleDecrement
  | op_archive => handleArchive
  end.

Fixpoint run (ops : list Op) (st : AppState) : M AppState :=
  match ops with
  | [] => ret st
  | o :: r => st' <- perform o st ;; run r st'
  end.

Fixpoint times (n : nat) (h : AppState -> M AppState) (st : AppState) : M AppState :=
  match n with
  | O => ret st
  | S k => st' <- h st ;; times k h st'
  end.

(** The world after [t] more readings of the clock and [d] more draws. *)
Definition advance (t d : nat) (w : World) : World :=
  mkWorld (clock w) (random36 w) (t + ticks w) (d + draws w).

(** The entry [addLog] builds in world [w]. *)
Definition entry_at (w : World) (a : Action) (d : jsstring) : LogEntry.t :=
  LogEntry.mk (random36 w (draws w) ++ Z_toString 36 (clock w (ticks w)))
              (clock w (S (ticks w))) a d.

(** ** Reachable trackers

    The tracker that a run follows: it is in the active slot, or it has
    been archived and is the newest entry of the history, in front of the
    entries [h] that were there before. *)

Definition tracked (h : list value) (st : AppState) (x : Tracker.t) : Prop :=
  (activeTracker st = of_Tracker x /\ history st = Arr h) \/
  (activeTracker st = Null /\ history st = Arr (of_Tracker x :: h)).

Definition counter_in_range (x : Tracker.t) : Prop :=
  0 <= Tracker.current x <= Tracker.target x /\ 1 <= Tracker.target x.

Definition completion_consistent (x : Tracker.t) : Prop :=
  Tracker.completedAt x <> None <-> Tracker.current x = Tracker.target x.

(** From zero the counter never leaves the integers that doubles count
    one by one: at [2^53] an increment leaves it where it is. *)
Definition counter_exact (x : Tracker.t) : Prop := Tracker.current x <= 2 ^ 53.

(** ** Sample inputs

    A world whose clock starts at 1700000000000 ms, and the state of a
    freshly loaded [App] with the create form filled in. *)

Definition sample_world : World :=
  mkWorld (fun n => Z.of_nat n + 1700000000000) (fun _ => lit "k3f9x2ab") 0 0.

Definition sample_form : AppState :=
  mkApp Null (Arr []) tab_tracker Null false (lit "Push-ups") (lit "20") [].

Definition sample_tracker (c : Z) (done : option Z) : Tracker.t :=
  Tracker.mk (lit "k3f9x2abloyw3v28") (lit "Push-ups") 20 c 1700000000001 done None
    [LogEntry.mk (lit "k3f9x2abloyw3v2a") 1700000000003 created
       (created_detail (lit "Push-ups") 20)].

Definition sample_active (c : Z) (done : option Z) : AppState :=
  mkApp (of_Tracker (sample_tracker c done)) (Arr []) tab_tracker Null false [] [] [].

(** A tracker whose target, [2^53 + 2], lies beyond the integers that
    doubles count one by one; such a tracker comes from an import, or
    from [2^53] clicks. *)
Definition sample_far (c : Z) (done : option Z) : Tracker.t :=
  Tracker.mk (lit "k3f9x2abloyw3v28") (lit "Steps") 9007199254740994 c
    1700000000001 done None
    [LogEntry.mk (lit "k3f9x2abloyw3v2a") 1700000000003 created
       (created_detail (lit "Steps") 9007199254740994)].

Definition sample_far_active (c : Z) (done : option Z) : AppState :=
  mkApp (of_Tracker (sample_far c done)) (Arr []) tab_tracker Null false [] [] [].

(** The create form with a target of 309 digits, which [parseInt] reads
    as [Infinity]. *)
Definition long_form : AppState := setTargetStr (repeat 57%N 309) sample_form.

(** Documents used as examples. *)

Definition falsy_slots_text : jsstring :=
  json "{'version':1,'activeTracker':false,'history':0}".

Definition null_history_text : jsstring :=
  json "{'version':1,'activeTracker':{'id':'a'},'history':null}".

Definition no_history_text : jsstring :=
  json "{'version':1,'activeTracker':{'id':'a'}}".

Definition zero_tracker_text : jsstring :=
  json "{'version':1,'activeTracker':0}".

(** An exported document whose tracker has [current = 25 > target = 20]. *)
Definition overfull_document : value :=
  Obj [ (lit "version", Num 1 0);
        (lit "activeTracker", of_Tracker (sample_tracker 25 None));
        (lit "history", Arr []) ].

Definition overfull_text : jsstring := serialize (gap_of_space 2) [] overfull_document.

(** ** The history store *)

(** [v === s] for a string [s]: strict equality holds only between a
    string and itself. *)
Definition strict_equal_string (v : value) (s : jsstring) : bool :=
  match v with
  | Str x => jsstring_eqb x s
  | _ => false
  end.

(** [h.filter(t => t.id !== id)]; reading [t.id] throws on a [null]
    element. *)
Fixpoint filter_out_id (id : jsstring) (h : list value) : option (list value) :=
  match h with
  | [] => Some []
  | t :: r =>
      let? i := Get t (lit "id") in
      let? r' := filter_out_id id r in
      Some (if strict_equal_string i id then r' else t :: r')
  end.

(** [handleDeleteHistory]; a history that is not an array has no
    [filter] method, which is a TypeError ([None]). *)
Definition handleDeleteHistory (id : jsstring) (st : AppState) : option AppState :=
  match history st with
  | Arr h =>
      let? h' := filter_out_id id h in
      Some (setHistory (Arr h') st)
  | _ => None
  end.

Definition Action_eq_dec (a b : Action) : {a = b} + {a <> b}.
Proof. decide equality. Defined.

(** The number of entries of one kind in a log. *)
Definition count_action (a : Action) (l : list LogEntry.t) : nat :=
  count_occ Action_eq_dec (map LogEntry.action l) a.

(** The followed tracker is in the active slot and has not been archived. *)
Definition live (h : list value) (st : AppState) (x : Tracker.t) : Prop :=
  activeTracker st = of_Tracker x /\ history st = Arr h /\
  Tracker.archivedAt x = None /\ count_action archived (Tracker.logs x) = 0%nat.

(** The followed tracker has been archived: it is the newest entry of the
    history and the active slot is empty. *)
Definition shelved (h : list value) (st : AppState) (x : Tracker.t) : Prop :=
  activeTracker st = Null /\ history st = Arr (of_Tracker x :: h) /\
  Tracker.archivedAt x <> None /\ count_action archived (Tracker.logs x) = 1%nat.

(** The log accounts for the counter: one [created] entry, at the front,
    and as many [increment] entries more than [decrement] entries as
    [current] says. *)
Definition ledger (x : Tracker.t) : Prop :=
  Tracker.current x =
    Z.of_nat (count_action increment (Tracker.logs x))
    - Z.of_nat (count_action decrement (Tracker.logs x)) /\
  count_action created (Tracker.logs x) = 1%nat /\
  exists e r, Tracker.logs x = e :: r /\ LogEntry.action e = created.

(** The create form filled in with the target [2^53 + 2]. *)
Definition far_form : AppState := setTargetStr (lit "9007199254740994") sample_form.

(** ** [LogList] *)

(** [logs.slice(0, finish)]: a negative [finish] counts from the end. *)
Definition slice_to {A} (finish : Z) (l : list A) : list A :=
  let len := Z.of_nat (List.length l) in
  let final := if finish <? 0 then Z.max (len + finish) 0 else Z.min finish len in
  firstn (Z.to_nat final) l.

(** [max ?? 5] *)
Definition max_or_default (max : option Z) : Z :=
  match max with
  | Some m => m
  | None => 5
  end.

(** The entries [LogList] renders. *)
Definition shown {A} (expanded : bool) (max : option Z) (logs : list A) : list A :=
  if expanded then logs else slice_to (max_or_default max) logs.

(** Whether [LogList] renders its "Show all / Show less" button. *)
Definition hasToggle {A} (max : option Z) (logs : list A) : bool :=
  max_or_default max <? Z.of_nat (List.length logs).

(** The inline activity log of the active tracker:
    [<LogList logs={[...activeTracker.logs].reverse()} />], in the
    [expanded] state that the list is in, and whether its toggle button
    is rendered. *)
Definition activityLog (expanded : bool) (x : Tracker.t) : list LogEntry.t :=
  shown expanded None (rev (Tracker.logs x)).

Definition activityLogToggle (x : Tracker.t) : bool :=
  hasToggle None (rev (Tracker.logs x)).

(** ** The create form *)

(** [onChange] of the target field: [e.target.value.replace(/\D/g, '')]. *)
Definition onTargetChange (input : jsstring) (st : AppState) : AppState :=
  setTargetStr (filter is_digit input) st.

(** [disabled={!targetStr || parseInt(targetStr) < 1}] of the Start
    button; a comparison with [NaN] is false. *)
Definition startDisabled (st : AppState) : bool :=
  match targetStr st with
  | [] => true
  | _ => match parseInt (targetStr st) with
         | Some n => n <? 1
         | None => false
         end
  end.

(** ** [usePersistedState]

    [localStorage] maps keys to texts; a write always succeeds (there is
    no quota). *)









(** More sample inputs: two archived trackers, and a document without an
    [activeTracker]. *)
Definition sample_archived (i : jsstring) : Tracker.t :=
  Tracker.mk i (lit "Laps") 3 3 1690000000000 (Some 1690000000500)
    (Some 1690000000900) [].

Definition sample_history : list Tracker.t :=
  [sample_archived (lit "a1"); sample_archived (lit "b2"); sample_archived (lit "a1")].


(** An active tracker above a history of three archived ones. *)
Definition sample_shelf : AppState :=
  setHistory (Arr (map of_Tracker sample_history)) (sample_active 7 None).

(** ** Proof tools *)

Ltac tracker_fields :=
  cbn [Tracker.id Tracker.label Tracker.target Tracker.current Tracker.createdAt
       Tracker.completedAt Tracker.archivedAt Tracker.logs] in *.

(** Appends nested to the right, with the leading conses exposed. *)
Ltac flatten_app := repeat (progress cbn [app] || rewrite <- app_assoc).

(** The numbers of a sample tracker are finite doubles. *)
Ltac finite_sample := repeat first [reflexivity | split | constructor].


(** * Properties of the data model *)

Lemma jsstring_eqb_eq a b : jsstring_eqb a b = true <-> a = b.
Proof.
  unfold jsstring_eqb. destruct (list_eq_dec N.eq_dec a b); split; congruence.
Qed.


Lemma action_of_name_name a : action_of_name (action_name a) = Some a.
Proof. destruct a; reflexivity. Qed.

Lemma to_nullable_of_nullable o : to_nullable (of_nullable o) = Some o.
Proof. destruct o; reflexivity. Qed.

Lemma to_LogEntry_of_LogEntry e : to_LogEntry (of_LogEntry e) = Some e.
Proof.
  destruct e as [i ts a d]. unfold to_LogEntry, of_LogEntry. cbn.
  rewrite action_of_name_name. reflexivity.
Qed.

Lemma to_list_LogEntry l : to_list to_LogEntry (map of_LogEntry l) = Some l.
Proof.
  induction l as [|e l IH]; cbn [map to_list]; [reflexivity|].
  rewrite to_LogEntry_of_LogEntry. cbn. rewrite IH. reflexivity.
Qed.

Lemma to_Tracker_of_Tracker x : to_Tracker (of_Tracker x) = Some x.
Proof.
  destruct x as [i l tg c cr co ar lg]. unfold to_Tracker, of_Tracker. cbn.
  rewrite !to_nullable_of_nullable. cbn.
  rewrite to_list_LogEntry. reflexivity.
Qed.

(** Equal objects are equal trackers. *)
Lemma of_Tracker_inj x y : of_Tracker x = of_Tracker y -> x = y.
Proof.
  intros H. apply (f_equal to_Tracker) in H.
  rewrite !to_Tracker_of_Tracker in H. congruence.
Qed.

Lemma viewActive_of_Tracker x : viewActive (of_Tracker x) = Holds x.
Proof. unfold viewActive. rewrite to_Tracker_of_Tracker. reflexivity. Qed.

(** * Properties of the engine *)

Lemma addLog_run x a d w :
  addLog x a d w =
  Some (Tracker.with_logs (Tracker.logs x ++ [entry_at w a d]) x, advance 2 1 w).
Proof. reflexivity. Qed.

(** Up to [2^53] in magnitude an integer is a double. *)
Lemma round53_exact z : - 2 ^ 53 <= z <= 2 ^ 53 -> round53 z = z.
Proof.
  intros H. unfold round53.
  destruct (Z.eq_dec (Z.abs z) (2 ^ 53)) as [E|E].
  - assert (z = 2 ^ 53 \/ z = - 2 ^ 53) as [-> | ->] by lia; reflexivity.
  - assert (L : Z.log2 (Z.abs z) - 52 <= 0).
    { destruct (Z.eq_dec z 0) as [->|Hz]; [cbn; lia|].
      assert (Z.log2 (Z.abs z) < 53); [|lia].
      apply Z.log2_lt_pow2; lia. }
    destruct (Z.leb_spec (Z.log2 (Z.abs z) - 52) 0); [reflexivity|lia].
Qed.

Lemma Number_of_exact z : - 2 ^ 53 <= z <= 2 ^ 53 -> Number_of z = z.
Proof.
  intros H. unfold Number_of. rewrite (round53_exact z H). cbv zeta.
  destruct (Z.leb_spec infinity (Z.abs z)) as [Hi|_]; [|reflexivity].
  unfold infinity in Hi. lia.
Qed.

Lemma finite_double_exact z : - 2 ^ 53 <= z <= 2 ^ 53 -> finite_double z.
Proof.
  intros H. split; [apply Number_of_exact, H|].
  unfold number_is_finite. apply Z.ltb_lt.
  change (10 ^ Z.of_N 0) with 1. lia.
Qed.

Lemma Number_add_exact c : - 2 ^ 53 <= c < 2 ^ 53 -> Number_add c 1 = c + 1.
Proof. intros H. apply Number_of_exact. lia. Qed.

Lemma Number_sub_exact c : - 2 ^ 53 < c <= 2 ^ 53 -> Number_sub c 1 = c - 1.
Proof. intros H. apply Number_of_exact. lia. Qed.

(** At [2^53] adding one changes nothing: [2^53 + 1] is not a double and
    rounds back to [2^53]. *)
Lemma Number_add_stuck : Number_add (2 ^ 53) 1 = 2 ^ 53.
Proof. reflexivity. Qed.

(** What [handleIncrement] does to a tracker below its target, in terms
    of the sum the code computes. *)
Lemma handleIncrement_rounded st w a :
  activeTracker st = of_Tracker a ->
  Tracker.current a < Tracker.target a ->
  handleIncrement st w =
  let c := Number_add (Tracker.current a) 1 in
  let e := entry_at w increment (progress_detail (Tracker.with_current c a)) in
  if Tracker.target a <=? c then
    Some (setActiveTracker
            (of_Tracker
               (Tracker.mk (Tracker.id a) (Tracker.label a) (Tracker.target a) c
                  (Tracker.createdAt a) (Some (clock w (2 + ticks w)))
                  (Tracker.archivedAt a)
                  (Tracker.logs a ++
                   [e; entry_at (advance 3 1 w) completed completed_detail])))
            st,
          advance 5 2 w)
  else
    Some (setActiveTracker
            (of_Tracker
               (Tracker.mk (Tracker.id a) (Tracker.label a) (Tracker.target a) c
                  (Tracker.createdAt a) (Tracker.completedAt a)
                  (Tracker.archivedAt a) (Tracker.logs a ++ [e])))
            st,
          advance 2 1 w).
Proof.
  intros Ha Hlt. unfold handleIncrement. rewrite Ha, viewActive_of_Tracker.
  destruct (Z.leb_spec (Tracker.target a) (Tracker.current a)); [lia|].
  unfold bind. rewrite addLog_run. cbn [Tracker.with_logs Tracker.with_current
    Tracker.target Tracker.current]. cbv zeta.
  destruct (Z.leb_spec (Tracker.target a) (Number_add (Tracker.current a) 1)).
  - cbn [Date_now advance ticks clock random36 draws Nat.add].
    rewrite addLog_run.
    cbn [Tracker.with_logs Tracker.with_completedAt Tracker.logs Tracker.id
      Tracker.label Tracker.target Tracker.current Tracker.createdAt
      Tracker.archivedAt ret advance ticks clock random36 draws Nat.add].
    rewrite <- app_assoc. reflexivity.
  - reflexivity.
Qed.

Lemma handleIncrement_below st w a :
  activeTracker st = of_Tracker a ->
  - 2 ^ 53 <= Tracker.current a < 2 ^ 53 ->
  Tracker.current a + 1 < Tracker.target a ->
  handleIncrement st w =
  Some (setActiveTracker
          (of_Tracker
             (Tracker.mk (Tracker.id a) (Tracker.label a) (Tracker.target a)
                (Tracker.current a + 1) (Tracker.createdAt a)
                (Tracker.completedAt a) (Tracker.archivedAt a)
                (Tracker.logs a ++
                 [entry_at w increment
                    (progress_detail (Tracker.with_current (Tracker.current a + 1) a))])))
          st,
        advance 2 1 w).
Proof.
  intros Ha Hs Hlt. rewrite (handleIncrement_rounded st w a Ha) by lia.
  cbv zeta. rewrite (Number_add_exact _ Hs).
  destruct (Z.leb_spec (Tracker.target a) (Tracker.current a + 1)); [lia|].
  reflexivity.
Qed.

Lemma handleIncrement_reach st w a :
  activeTracker st = of_Tracker a ->
  - 2 ^ 53 <= Tracker.current a < 2 ^ 53 ->
  Tracker.current a + 1 = Tracker.target a ->
  handleIncrement st w =
  Some (setActiveTracker
          (of_Tracker
             (Tracker.mk (Tracker.id a) (Tracker.label a) (Tracker.target a)
                (Tracker.current a + 1) (Tracker.createdAt a)
                (Some (clock w (2 + ticks w))) (Tracker.archivedAt a)
                (Tracker.logs a ++
                 [entry_at w increment
                    (progress_detail (Tracker.with_current (Tracker.current a + 1) a));
                  entry_at (advance 3 1 w) completed completed_detail])))
          st,
        advance 5 2 w).
Proof.
  intros Ha Hs Hlt. rewrite (handleIncrement_rounded st w a Ha) by lia.
  cbv zeta. rewrite (Number_add_exact _ Hs).
  destruct (Z.leb_spec (Tracker.target a) (Tracker.current a + 1)); [|lia].
  reflexivity.
Qed.

(** At [2^53] below the target the counter stays where it is, and an
    [increment] entry is appended all the same. *)
Lemma handleIncrement_stuck st w a :
  activeTracker st = of_Tracker a ->
  Tracker.current a = 2 ^ 53 ->
  Tracker.current a < Tracker.target a ->
  handleIncrement st w =
  Some (setActiveTracker
          (of_Tracker
             (Tracker.mk (Tracker.id a) (Tracker.label a) (Tracker.target a)
                (Tracker.current a) (Tracker.createdAt a)
                (Tracker.completedAt a) (Tracker.archivedAt a)
                (Tracker.logs a ++
                 [entry_at w increment
                    (progress_detail (Tracker.with_current (Tracker.current a) a))])))
          st,
        advance 2 1 w).
Proof.
  intros Ha Hc Hlt. rewrite (handleIncrement_rounded st w a Ha Hlt).
  assert (E : Number_add (Tracker.current a) 1 = Tracker.current a)
    by (rewrite Hc; apply Number_add_stuck).
  cbv zeta. rewrite E.
  destruct (Z.leb_spec (Tracker.target a) (Tracker.current a)); [lia|].
  reflexivity.
Qed.

Lemma handleIncrement_full st w a :
  activeTracker st = of_Tracker a ->
  Tracker.target a <= Tracker.current a ->
  handleIncrement st w = Some (st, w).
Proof.
  intros Ha Hge. unfold handleIncrement. rewrite Ha, viewActive_of_Tracker.
  destruct (Z.leb_spec (Tracker.target a) (Tracker.current a)); [reflexivity|lia].
Qed.

(** The tracker [handleCreate] builds in world [w] from the form. *)
Lemma handleCreate_ok st w tg :
  parseInt (targetStr st) = Some tg ->
  1 <= tg ->
  let l := match trim (label st) with [] => lit "Tracker" | s => s end in
  handleCreate st w =
  Some (setTargetStr [] (setLabel []
          (setActiveTracker
             (of_Tracker
                (Tracker.mk
                   (random36 w (draws w) ++ Z_toString 36 (clock w (ticks w)))
                   l tg 0 (clock w (S (ticks w))) None None
                   [entry_at (advance 2 1 w) created (created_detail l tg)]))
             st)),
        advance 4 2 w).
Proof.
  intros Hp Hge l. unfold handleCreate. rewrite Hp.
  destruct (Z.eqb_spec tg 0); [lia|].
  destruct (Z.ltb_spec tg 1); [lia|].
  reflexivity.
Qed.

Lemma handleCreate_rejects st w :
  (forall tg, parseInt (targetStr st) = Some tg -> tg < 1) ->
  handleCreate st w = Some (st, w).
Proof.
  intros H. unfold handleCreate.
  destruct (parseInt (targetStr st)) as [tg|]; [|reflexivity].
  specialize (H tg eq_refl).
  destruct (Z.eqb_spec tg 0); [reflexivity|].
  destruct (Z.ltb_spec tg 1); [reflexivity|lia].
Qed.

Lemma activeTracker_set v st : activeTracker (setActiveTracker v st) = v.
Proof. reflexivity. Qed.

(** [k] increments of a tracker that has room for them. *)
Lemma increments_run k : forall st w a,
  activeTracker st = of_Tracker a ->
  - 2 ^ 53 <= Tracker.current a ->
  Tracker.current a + Z.of_nat k <= 2 ^ 53 ->
  Tracker.current a + Z.of_nat k <= Tracker.target a ->
  exists st' w' x,
    times k handleIncrement st w = Some (st', w') /\
    activeTracker st' = of_Tracker x /\
    history st' = history st /\
    Tracker.target x = Tracker.target a /\
    Tracker.current x = Tracker.current a + Z.of_nat k /\
    (if (0 <? Z.of_nat k) && (Tracker.current a + Z.of_nat k =? Tracker.target a)
     then Tracker.completedAt x <> None /\
          map LogEntry.action (Tracker.logs x) =
          map LogEntry.action (Tracker.logs a) ++ repeat increment k ++ [completed]
     else Tracker.completedAt x = Tracker.completedAt a /\
          map LogEntry.action (Tracker.logs x) =
          map LogEntry.action (Tracker.logs a) ++ repeat increment k).
Proof.
  induction k as [|k IH]; intros st w a Ha Hlow Hexact Hroom.
  - exists st, w, a. cbn [times ret Z.of_nat repeat]. rewrite app_nil_r.
    repeat split; try lia; assumption.
  - cbn [times]. unfold bind.
    assert (Hs : - 2 ^ 53 <= Tracker.current a < 2 ^ 53) by lia.
    destruct (Z.eq_dec (Tracker.current a + 1) (Tracker.target a)) as [Hr|Hr].
    + assert (k = 0%nat) by lia. subst k.
      rewrite (handleIncrement_reach st w a Ha Hs Hr). cbn [times ret].
      eexists _, _, _. split; [reflexivity|]. rewrite activeTracker_set.
      split; [reflexivity|]. cbn [Tracker.target Tracker.current Tracker.completedAt
        Tracker.logs history setActiveTracker].
      replace (Z.of_nat 1) with 1 by reflexivity.
      destruct (Z.ltb_spec 0 1); [|lia].
      destruct (Z.eqb_spec (Tracker.current a + 1) (Tracker.target a)); [|lia].
      cbn [andb]. rewrite map_app. cbn.
      repeat split; congruence.
    + assert (Hb : Tracker.current a + 1 < Tracker.target a) by lia.
      rewrite (handleIncrement_below st w a Ha Hs Hb).
      match goal with |- context [times k handleIncrement ?s ?w1] =>
        destruct (IH s w1 _ (activeTracker_set _ st)) as (st' & w' & x & Hrun & Hx & Hh & Ht & Hc & Hl)
      end.
      { cbn [Tracker.current]. lia. }
      { cbn [Tracker.current]. lia. }
      { cbn [Tracker.current Tracker.target]. lia. }
      cbn [Tracker.current Tracker.target Tracker.completedAt Tracker.logs] in Ht, Hc, Hl.
      exists st', w', x. split; [exact Hrun|]. split; [exact Hx|].
      split; [exact Hh|]. split; [exact Ht|]. split; [lia|].
      replace (Tracker.current a + 1 + Z.of_nat k) with (Tracker.current a + Z.of_nat (S k)) in Hl by lia.
      rewrite map_app in Hl. cbn [map LogEntry.action entry_at] in Hl.
      rewrite <- !app_assoc in Hl. cbn [app] in Hl.
      destruct (Z.eqb_spec (Tracker.current a + Z.of_nat (S k)) (Tracker.target a)) as [He|He].
      * assert (0 < Z.of_nat k) by lia.
        destruct (Z.ltb_spec 0 (Z.of_nat k)); [|lia].
        destruct (Z.ltb_spec 0 (Z.of_nat (S k))); [|lia].
        cbn [andb] in *. cbn [repeat app]. exact Hl.
      * rewrite andb_false_r in *. cbn [repeat app]. exact Hl.
Qed.

(** The claim C1 as written fails on a tracker whose [current] is
    [2^53], below a target of [2^53 + 2]: the sum [current + 1] is not a
    double and rounds back to [current], so the increment leaves the
    counter where it was, and appends its [increment] entry all the
    same. *)
Lemma increment_transition_counterexample :
  exists st' w' x e,
    Tracker.current (sample_far 9007199254740992 None)
      < Tracker.target (sample_far 9007199254740992 None) /\
    handleIncrement (sample_far_active 9007199254740992 None) sample_world
      = Some (st', w') /\
    activeTracker st' = of_Tracker x /\
    Tracker.logs x = Tracker.logs (sample_far 9007199254740992 None) ++ [e] /\
    LogEntry.action e = increment /\
    Tracker.current x = Tracker.current (sample_far 9007199254740992 None) /\
    Tracker.current x <> Tracker.current (sample_far 9007199254740992 None) + 1.
Proof.
  eexists _, _, _, (entry_at sample_world increment _).
  split; [cbn; lia|].
  rewrite (handleIncrement_stuck (sample_far_active 9007199254740992 None) sample_world
             (sample_far 9007199254740992 None) eq_refl);
    [|reflexivity|cbn; lia].
  split; [reflexivity|]. split; [reflexivity|]. split; [reflexivity|].
  split; [reflexivity|]. split; [reflexivity|]. cbn. lia.
Qed.

(** C1, amended.  [handleIncrement] on a tracker below its target whose
    [current] is an integer from [-2^53] to [2^53 - 1] adds one to
    [current] and appends one [increment] entry; when the new [current]
    equals [target] the same call also sets [completedAt] to the clock
    reading and appends one [completed] entry; the new tracker is the one
    in the active slot afterwards, and the history is not touched.  On a
    tracker at or above its target it changes nothing.  Creating with
    target "20" and incrementing [k <= 20] times gives [current = k],
    [completedAt] set exactly when [k = 20], and the log [created], [k]
    times [increment], then [completed] exactly when [k = 20]. *)
Theorem increment_transition :
  (forall st w a,
      activeTracker st = of_Tracker a ->
      Tracker.current a < Tracker.target a ->
      - 2 ^ 53 <= Tracker.current a < 2 ^ 53 ->
      exists st' w' x e,
        handleIncrement st w = Some (st', w') /\
        activeTracker st' = of_Tracker x /\
        history st' = history st /\
        Tracker.current x = Tracker.current a + 1 /\
        Tracker.id x = Tracker.id a /\
        Tracker.label x = Tracker.label a /\
        Tracker.target x = Tracker.target a /\
        Tracker.createdAt x = Tracker.createdAt a /\
        Tracker.archivedAt x = Tracker.archivedAt a /\
        LogEntry.action e = increment /\
        if Tracker.current a + 1 =? Tracker.target a
        then exists e',
               LogEntry.action e' = completed /\
               Tracker.logs x = Tracker.logs a ++ [e; e'] /\
               Tracker.completedAt x = Some (clock w (2 + ticks w))
        else Tracker.logs x = Tracker.logs a ++ [e] /\
             Tracker.completedAt x = Tracker.completedAt a) /\
  (forall st w a,
      activeTracker st = of_Tracker a ->
      Tracker.target a <= Tracker.current a ->
      exists st' w',
        handleIncrement st w = Some (st', w') /\
        st' = st /\ w' = w /\
        activeTracker st' = of_Tracker a) /\
  (forall st w k,
      targetStr st = lit "20" ->
      (k <= 20)%nat ->
      exists st' w' x,
        (st1 <- handleCreate st ;; times k handleIncrement st1) w = Some (st', w') /\
        activeTracker st' = of_Tracker x /\
        Tracker.target x = 20 /\
        Tracker.current x = Z.of_nat k /\
        (Tracker.completedAt x <> None <-> k = 20%nat) /\
        map LogEntry.action (Tracker.logs x) =
        created :: repeat increment k ++ (if (k =? 20)%nat then [completed] else [])).
Proof.
  split; [|split].
  - intros st w a Ha Hlt Hs.
    destruct (Z.eqb_spec (Tracker.current a + 1) (Tracker.target a)) as [Hr|Hr].
    + eexists _, _, _, (entry_at w increment _).
      rewrite (handleIncrement_reach st w a Ha Hs Hr).
      split; [reflexivity|]. split; [reflexivity|]. split; [reflexivity|].
      cbn [Tracker.current Tracker.id Tracker.label
        Tracker.target Tracker.createdAt Tracker.archivedAt Tracker.logs
        Tracker.completedAt].
      repeat (split; [reflexivity|]).
      exists (entry_at (advance 3 1 w) completed completed_detail).
      repeat split.
    + assert (Hb : Tracker.current a + 1 < Tracker.target a) by lia.
      eexists _, _, _, (entry_at w increment _).
      rewrite (handleIncrement_below st w a Ha Hs Hb).
      split; [reflexivity|]. split; [reflexivity|]. split; [reflexivity|].
      cbn [Tracker.current Tracker.id Tracker.label
        Tracker.target Tracker.createdAt Tracker.archivedAt Tracker.logs
        Tracker.completedAt].
      repeat (split; [reflexivity|]). split; reflexivity.
  - intros st w a Ha Hge. exists st, w.
    split; [exact (handleIncrement_full st w a Ha Hge)|].
    split; [reflexivity|]. split; [reflexivity|exact Ha].
  - intros st w k Hstr Hk. unfold bind.
    assert (Hp : parseInt (targetStr st) = Some 20) by (rewrite Hstr; reflexivity).
    rewrite (handleCreate_ok st w 20 Hp ltac:(lia)).
    match goal with |- context [times k handleIncrement ?s ?w1] =>
      destruct (increments_run k s w1 _ eq_refl)
        as (st' & w' & x & Hrun & Hx & _ & Ht & Hc & Hl)
    end.
    { cbn [Tracker.current]. lia. }
    { cbn [Tracker.current]. lia. }
    { cbn [Tracker.current Tracker.target]. lia. }
    cbn [Tracker.current Tracker.target Tracker.completedAt Tracker.logs
      map LogEntry.action entry_at app] in Ht, Hc, Hl.
    exists st', w', x. split; [exact Hrun|]. split; [exact Hx|].
    split; [exact Ht|]. split; [lia|].
    destruct (Nat.eqb_spec k 20) as [Hk20|Hk20].
    + subst k. cbn in Hl. destruct Hl as [Hd Hl]. split; [tauto|exact Hl].
    + destruct (Z.eqb_spec (0 + Z.of_nat k) 20); [lia|].
      rewrite andb_false_r in Hl. destruct Hl as [Hd Hl].
      rewrite app_nil_r. split; [|exact Hl].
      rewrite Hd. split; [congruence|lia].
Qed.

Lemma increment_transition_witness :
  exists st' w' x e,
    handleIncrement (sample_active 19 None) sample_world = Some (st', w') /\
    activeTracker st' = of_Tracker x /\
    history st' = history (sample_active 19 None) /\
    Tracker.current x = 20 /\
    LogEntry.action e = increment /\
    exists e', LogEntry.action e' = completed /\
      Tracker.logs x = Tracker.logs (sample_tracker 19 None) ++ [e; e'] /\
      Tracker.completedAt x = Some 1700000000002.
Proof.
  destruct increment_transition as [H _].
  destruct (H (sample_active 19 None) sample_world (sample_tracker 19 None) eq_refl)
    as (st' & w' & x & e & Hrun & Hx & Hh & Hc & _ & _ & _ & _ & _ & He & Hl).
  - cbn. lia.
  - cbn. lia.
  - exists st', w', x, e. split; [exact Hrun|]. split; [exact Hx|].
    split; [exact Hh|]. split; [exact Hc|]. split; [exact He|].
    exact Hl.
Defined.

(** What [handleDecrement] does to a tracker above zero, in terms of the
    difference the code computes. *)
Lemma handleDecrement_rounded st w a :
  activeTracker st = of_Tracker a ->
  0 < Tracker.current a ->
  handleDecrement st w =
  let c := Number_sub (Tracker.current a) 1 in
  Some (setActiveTracker
          (of_Tracker
             (Tracker.mk (Tracker.id a) (Tracker.label a) (Tracker.target a) c
                (Tracker.createdAt a)
                (if Tracker.target a <=? Tracker.current a then None
                 else Tracker.completedAt a)
                (Tracker.archivedAt a)
                (Tracker.logs a ++
                 [entry_at w decrement (progress_detail (Tracker.with_current c a))])))
          st,
        advance 2 1 w).
Proof.
  intros Ha Hpos. unfold handleDecrement. rewrite Ha, viewActive_of_Tracker.
  destruct (Z.leb_spec (Tracker.current a) 0); [lia|].
  reflexivity.
Qed.

Lemma handleDecrement_run st w a :
  activeTracker st = of_Tracker a ->
  0 < Tracker.current a <= 2 ^ 53 ->
  handleDecrement st w =
  Some (setActiveTracker
          (of_Tracker
             (Tracker.mk (Tracker.id a) (Tracker.label a) (Tracker.target a)
                (Tracker.current a - 1) (Tracker.createdAt a)
                (if Tracker.target a <=? Tracker.current a then None
                 else Tracker.completedAt a)
                (Tracker.archivedAt a)
                (Tracker.logs a ++
                 [entry_at w decrement
                    (progress_detail (Tracker.with_current (Tracker.current a - 1) a))])))
          st,
        advance 2 1 w).
Proof.
  intros Ha Hpos. rewrite (handleDecrement_rounded st w a Ha) by lia.
  cbv zeta. rewrite Number_sub_exact by lia. reflexivity.
Qed.

Lemma handleDecrement_zero st w a :
  activeTracker st = of_Tracker a ->
  Tracker.current a <= 0 ->
  handleDecrement st w = Some (st, w).
Proof.
  intros Ha Hz. unfold handleDecrement. rewrite Ha, viewActive_of_Tracker.
  destruct (Z.leb_spec (Tracker.current a) 0); [reflexivity|lia].
Qed.

Lemma handleArchive_run st w a h :
  activeTracker st = of_Tracker a ->
  history st = Arr h ->
  handleArchive st w =
  Some (setActiveTracker Null
          (setHistory
             (Arr (of_Tracker
                     (Tracker.mk (Tracker.id a) (Tracker.label a) (Tracker.target a)
                        (Tracker.current a) (Tracker.createdAt a)
                        (Tracker.completedAt a) (Some (clock w (ticks w)))
                        (Tracker.logs a ++
                         [entry_at (advance 1 0 w) archived (lit "Tracker archived")]))
                   :: h))
             st),
        advance 3 1 w).
Proof.
  intros Ha Hh. unfold handleArchive. rewrite Ha, viewActive_of_Tracker.
  unfold bind. cbn [Date_now]. rewrite addLog_run. rewrite Hh. reflexivity.
Qed.

Lemma handlers_skip_empty_slot o st w :
  activeTracker st = Null -> perform o st w = Some (st, w).
Proof.
  intros H. destruct o; cbn [perform];
    unfold handleIncrement, handleDecrement, handleArchive; rewrite H; reflexivity.
Qed.

(** The claim C3 as written fails on a tracker whose [current] is
    [2^53 + 2]: the difference [current - 1] is not a double and rounds
    to [2^53], so one decrement takes two off the counter. *)
Lemma decrement_transition_counterexample :
  exists st' w' x e,
    0 < Tracker.current (sample_far 9007199254740994 (Some 1700000000050)) /\
    handleDecrement (sample_far_active 9007199254740994 (Some 1700000000050))
      sample_world = Some (st', w') /\
    activeTracker st' = of_Tracker x /\
    Tracker.logs x
      = Tracker.logs (sample_far 9007199254740994 (Some 1700000000050)) ++ [e] /\
    LogEntry.action e = decrement /\
    Tracker.current x
      = Tracker.current (sample_far 9007199254740994 (Some 1700000000050)) - 2 /\
    Tracker.current x
      <> Tracker.current (sample_far 9007199254740994 (Some 1700000000050)) - 1.
Proof.
  eexists _, _, _, (entry_at sample_world decrement _).
  split; [cbn; lia|].
  rewrite (handleDecrement_rounded
             (sample_far_active 9007199254740994 (Some 1700000000050)) sample_world
             (sample_far 9007199254740994 (Some 1700000000050)) eq_refl)
    by (cbn; lia).
  split; [reflexivity|]. split; [reflexivity|]. split; [reflexivity|].
  split; [reflexivity|]. split; [reflexivity|]. vm_compute. discriminate.
Qed.

(** C3, amended.  [handleDecrement] on a tracker with
    [0 < current <= 2^53] subtracts one, appends one [decrement] entry,
    and clears [completedAt] when the tracker was at or above its target;
    the new tracker is the one in the active slot afterwards, and the
    history is not touched.  On a tracker with [current = 0] it returns
    the very same state and reads neither clock nor random source. *)
Theorem decrement_transition :
  (forall st w a,
      activeTracker st = of_Tracker a ->
      0 < Tracker.current a <= 2 ^ 53 ->
      exists st' w' x e,
        handleDecrement st w = Some (st', w') /\
        activeTracker st' = of_Tracker x /\
        history st' = history st /\
        Tracker.current x = Tracker.current a - 1 /\
        Tracker.logs x = Tracker.logs a ++ [e] /\
        LogEntry.action e = decrement /\
        (Tracker.target a <= Tracker.current a -> Tracker.completedAt x = None) /\
        (Tracker.current a < Tracker.target a ->
         Tracker.completedAt x = Tracker.completedAt a) /\
        Tracker.id x = Tracker.id a /\
        Tracker.label x = Tracker.label a /\
        Tracker.target x = Tracker.target a /\
        Tracker.createdAt x = Tracker.createdAt a /\
        Tracker.archivedAt x = Tracker.archivedAt a) /\
  (forall st w a,
      activeTracker st = of_Tracker a ->
      Tracker.current a = 0 ->
      exists st' w',
        handleDecrement st w = Some (st', w') /\
        st' = st /\ w' = w /\
        activeTracker st' = of_Tracker a).
Proof.
  split.
  - intros st w a Ha Hpos.
    eexists _, _, _, (entry_at w decrement _).
    rewrite (handleDecrement_run st w a Ha Hpos).
    split; [reflexivity|]. split; [reflexivity|]. split; [reflexivity|].
    cbn [Tracker.current Tracker.id Tracker.label
      Tracker.target Tracker.createdAt Tracker.archivedAt Tracker.logs
      Tracker.completedAt].
    repeat (split; [reflexivity|]).
    split; [|split; [|repeat split]]; intros Hc.
    + destruct (Z.leb_spec (Tracker.target a) (Tracker.current a)); [reflexivity|lia].
    + destruct (Z.leb_spec (Tracker.target a) (Tracker.current a)); [lia|reflexivity].
  - intros st w a Ha Hz. exists st, w.
    split; [apply (handleDecrement_zero st w a Ha); lia|].
    split; [reflexivity|]. split; [reflexivity|exact Ha].
Qed.

Lemma decrement_transition_witness :
  (exists st' w' x e,
      handleDecrement (sample_active 20 (Some 1700000000050)) sample_world
        = Some (st', w') /\
      activeTracker st' = of_Tracker x /\
      history st' = history (sample_active 20 (Some 1700000000050)) /\
      Tracker.current x = 19 /\
      Tracker.logs x = Tracker.logs (sample_tracker 20 (Some 1700000000050)) ++ [e] /\
      LogEntry.action e = decrement /\
      Tracker.completedAt x = None) /\
  (exists st' w',
      handleDecrement (sample_active 0 None) sample_world = Some (st', w') /\
      st' = sample_active 0 None /\ w' = sample_world /\
      activeTracker st' = of_Tracker (sample_tracker 0 None)).
Proof.
  destruct decrement_transition as [H1 H2]. split.
  - destruct (H1 (sample_active 20 (Some 1700000000050)) sample_world
                (sample_tracker 20 (Some 1700000000050)) eq_refl)
      as (st' & w' & x & e & Hrun & Hx & Hh & Hc & Hl & He & Hd & _).
    + cbn. lia.
    + exists st', w', x, e. repeat (split; [assumption|]). apply Hd. cbn. lia.
  - apply (H2 (sample_active 0 None) sample_world (sample_tracker 0 None));
      reflexivity.
Defined.







(** C6. [handleArchive] on an active tracker sets [archivedAt] to the
    clock reading, appends one [archived] entry, puts the result in front
    of the history, whose earlier entries keep their order, and empties the
    active slot; the other fields of the tracker are unchanged. *)
Theorem archive_transition st w a h :
  activeTracker st = of_Tracker a ->
  history st = Arr h ->
  exists st' w' x e,
    handleArchive st w = Some (st', w') /\
    activeTracker st' = Null /\
    history st' = Arr (of_Tracker x :: h) /\
    Tracker.archivedAt x = Some (clock w (ticks w)) /\
    Tracker.logs x = Tracker.logs a ++ [e] /\
    LogEntry.action e = archived /\
    Tracker.id x = Tracker.id a /\
    Tracker.label x = Tracker.label a /\
    Tracker.target x = Tracker.target a /\
    Tracker.current x = Tracker.current a /\
    Tracker.createdAt x = Tracker.createdAt a /\
    Tracker.completedAt x = Tracker.completedAt a.
Proof.
  intros Ha Hh.
  eexists _, _, _, (entry_at (advance 1 0 w) archived _).
  rewrite (handleArchive_run st w a h Ha Hh).
  repeat split.
Qed.

Lemma archive_transition_witness :
  exists st' w' x e,
    handleArchive (sample_active 7 None) sample_world = Some (st', w') /\
    activeTracker st' = Null /\
    history st' = Arr [of_Tracker x] /\
    Tracker.archivedAt x = Some 1700000000000 /\
    Tracker.logs x = Tracker.logs (sample_tracker 7 None) ++ [e] /\
    LogEntry.action e = archived.
Proof.
  destruct (archive_transition (sample_active 7 None) sample_world
              (sample_tracker 7 None) [] eq_refl eq_refl)
    as (st' & w' & x & e & Hrun & Hs & Hh & Ha & Hl & He & _).
  exists st', w', x, e. repeat (split; [assumption|]). assumption.
Defined.

(** One operation keeps the followed tracker within its invariants, and
    keeps its target. *)
Lemma perform_tracked o st w h x :
  tracked h st x ->
  counter_in_range x ->
  completion_consistent x ->
  counter_exact x ->
  exists st' w' x',
    perform o st w = Some (st', w') /\
    tracked h st' x' /\
    counter_in_range x' /\
    completion_consistent x' /\
    counter_exact x' /\
    Tracker.target x' = Tracker.target x.
Proof.
  intros [[Ha Hh]|[Ha Hh]] Hr Hc He.
  2:{ exists st, w, x. rewrite (handlers_skip_empty_slot o st w Ha).
      split; [reflexivity|]. split; [right; split; assumption|].
      split; [assumption|]. split; [assumption|]. split; [assumption|reflexivity]. }
  unfold counter_in_range, completion_consistent, counter_exact in *.
  destruct o; cbn [perform].
  - destruct (Z.lt_ge_cases (Tracker.current x) (Tracker.target x)) as [Hlt|Hge].
    + destruct (Z.eq_dec (Tracker.current x) (2 ^ 53)) as [Htop|Htop].
      * eexists _, _, _. rewrite (handleIncrement_stuck st w x Ha Htop Hlt).
        split; [reflexivity|]. split; [left; split; [reflexivity|exact Hh]|].
        tracker_fields. split; [lia|]. split; [exact Hc|]. split; [exact He|reflexivity].
      * assert (Hs : - 2 ^ 53 <= Tracker.current x < 2 ^ 53) by lia.
        destruct (Z.eq_dec (Tracker.current x + 1) (Tracker.target x)) as [Hreach|Hn].
        -- eexists _, _, _. rewrite (handleIncrement_reach st w x Ha Hs Hreach).
           split; [reflexivity|]. split; [left; split; [reflexivity|exact Hh]|].
           tracker_fields. split; [lia|]. split; [|split; [lia|reflexivity]].
           split; [intros _; lia|congruence].
        -- assert (Hb : Tracker.current x + 1 < Tracker.target x) by lia.
           eexists _, _, _. rewrite (handleIncrement_below st w x Ha Hs Hb).
           split; [reflexivity|]. split; [left; split; [reflexivity|exact Hh]|].
           tracker_fields. split; [lia|]. split; [|split; [lia|reflexivity]].
           split; [intros Hd|lia]. apply Hc in Hd. lia.
    + exists st, w, x. rewrite (handleIncrement_full st w x Ha Hge).
      split; [reflexivity|]. split; [left; split; assumption|].
      split; [assumption|]. split; [assumption|]. split; [assumption|reflexivity].
  - destruct (Z.lt_ge_cases 0 (Tracker.current x)) as [Hpos|Hz].
    + eexists _, _, _. rewrite (handleDecrement_run st w x Ha) by lia.
      split; [reflexivity|]. split; [left; split; [reflexivity|exact Hh]|].
      tracker_fields. split; [lia|]. split; [|split; [lia|reflexivity]].
      destruct (Z.leb_spec (Tracker.target x) (Tracker.current x)).
      * split; [congruence|lia].
      * split; [intros Hd; apply Hc in Hd; lia|lia].
    + exists st, w, x. rewrite (handleDecrement_zero st w x Ha Hz).
      split; [reflexivity|]. split; [left; split; assumption|].
      split; [assumption|]. split; [assumption|]. split; [assumption|reflexivity].
  - eexists _, _, _. rewrite (handleArchive_run st w x h Ha Hh).
    split; [reflexivity|]. split; [right; split; reflexivity|].
    tracker_fields. split; [assumption|]. split; [assumption|].
    split; [assumption|reflexivity].
Qed.

Lemma run_tracked ops : forall st w h x,
  tracked h st x ->
  counter_in_range x ->
  completion_consistent x ->
  counter_exact x ->
  exists st' w' x',
    run ops st w = Some (st', w') /\
    tracked h st' x' /\
    counter_in_range x' /\
    completion_consistent x' /\
    counter_exact x' /\
    Tracker.target x' = Tracker.target x.
Proof.
  induction ops as [|o ops IH]; intros st w h x Ht Hr Hc He.
  - exists st, w, x. split; [reflexivity|]. split; [exact Ht|].
    split; [assumption|]. split; [assumption|]. split; [assumption|reflexivity].
  - destruct (perform_tracked o st w h x Ht Hr Hc He)
      as (st1 & w1 & x1 & Hrun & Ht1 & Hr1 & Hc1 & He1 & Hg1).
    destruct (IH st1 w1 h x1 Ht1 Hr1 Hc1 He1)
      as (st2 & w2 & x2 & Hrun2 & Ht2 & Hr2 & Hc2 & He2 & Hg2).
    exists st2, w2, x2. cbn [run]. unfold bind. rewrite Hrun.
    split; [exact Hrun2|]. split; [exact Ht2|]. split; [exact Hr2|].
    split; [exact Hc2|]. split; [exact He2|congruence].
Qed.

(** Every tracker reached from a successful create satisfies the
    invariants and has the target it was created with. *)
Lemma reachable_invariants st w tg h ops :
  parseInt (targetStr st) = Some tg ->
  1 <= tg ->
  history st = Arr h ->
  exists st' w' x,
    (st1 <- handleCreate st ;; run ops st1) w = Some (st', w') /\
    tracked h st' x /\
    counter_in_range x /\
    completion_consistent x /\
    counter_exact x /\
    Tracker.target x = tg.
Proof.
  intros Hp Hge Hh. unfold bind. rewrite (handleCreate_ok st w tg Hp Hge).
  match goal with |- context [run ops ?s ?w1] =>
    destruct (run_tracked ops s w1 h _ (or_introl (conj eq_refl Hh)))
      as (st' & w' & x & Hrun & Ht & Hr & Hc & He & Hg)
  end.
  - unfold counter_in_range. tracker_fields. lia.
  - unfold completion_consistent. tracker_fields. split; [congruence|lia].
  - unfold counter_exact. tracker_fields. lia.
  - exists st', w', x. split; [exact Hrun|]. split; [exact Ht|].
    split; [exact Hr|]. split; [exact Hc|]. split; [exact He|exact Hg].
Qed.

(** C2. After a successful [handleCreate] and any sequence of increment,
    decrement and archive operations, the tracker that was created (in the
    active slot, or at the front of the history once archived) has
    [0 <= current <= target] and [target >= 1]. *)
Theorem counter_invariant st w tg h ops :
  parseInt (targetStr st) = Some tg ->
  1 <= tg ->
  history st = Arr h ->
  exists st' w' x,
    (st1 <- handleCreate st ;; run ops st1) w = Some (st', w') /\
    tracked h st' x /\
    0 <= Tracker.current x <= Tracker.target x /\
    1 <= Tracker.target x.
Proof.
  intros Hp Hge Hh.
  destruct (reachable_invariants st w tg h ops Hp Hge Hh)
    as (st' & w' & x & Hrun & Ht & Hr & _).
  exists st', w', x. split; [exact Hrun|]. split; [exact Ht|]. exact Hr.
Qed.

Lemma counter_invariant_witness :
  exists st' w' x,
    (st1 <- handleCreate sample_form ;;
     run [op_increment; op_increment; op_decrement; op_decrement; op_decrement;
          op_archive; op_increment] st1) sample_world = Some (st', w') /\
    tracked [] st' x /\
    0 <= Tracker.current x <= Tracker.target x /\
    1 <= Tracker.target x.
Proof.
  apply (counter_invariant sample_form sample_world 20 []); [reflexivity|lia|reflexivity].
Defined.

(** C4. After a successful [handleCreate] and any sequence of increment,
    decrement and archive operations, the tracker that was created has a
    non-null [completedAt] exactly when [current = target]. *)
Theorem completion_invariant st w tg h ops :
  parseInt (targetStr st) = Some tg ->
  1 <= tg ->
  history st = Arr h ->
  exists st' w' x,
    (st1 <- handleCreate st ;; run ops st1) w = Some (st', w') /\
    tracked h st' x /\
    (Tracker.completedAt x <> None <-> Tracker.current x = Tracker.target x).
Proof.
  intros Hp Hge Hh.
  destruct (reachable_invariants st w tg h ops Hp Hge Hh)
    as (st' & w' & x & Hrun & Ht & _ & Hc & _).
  exists st', w', x. split; [exact Hrun|]. split; [exact Ht|]. exact Hc.
Qed.

Lemma completion_invariant_witness :
  exists st' w' x,
    (st1 <- handleCreate (setTargetStr (lit "2") sample_form) ;;
     run [op_increment; op_increment; op_increment; op_decrement; op_increment;
          op_archive] st1) sample_world = Some (st', w') /\
    tracked [] st' x /\
    (Tracker.completedAt x <> None <-> Tracker.current x = Tracker.target x).
Proof.
  apply (completion_invariant (setTargetStr (lit "2") sample_form) sample_world 2 []);
    [reflexivity|lia|reflexivity].
Defined.

(** * Properties of the codec *)

Lemma invalid_file_message_nonempty : invalid_file_message <> [].
Proof. discriminate. Qed.

(** What the [try] block computes, in one formula. *)
Lemma tryImport_cases text st :
  tryImport text st =
  match JSON_parse text with
  | None => None
  | Some doc =>
      if ToBoolean (field doc (lit "version")) &&
         (ToBoolean (field doc (lit "activeTracker")) ||
          ToBoolean (field doc (lit "history")))
      then Some (setTab tab_tracker
                   (setShowImport false
                      (setHistory (coalesce (field doc (lit "history")) (Arr []))
                         (setActiveTracker (field doc (lit "activeTracker")) st))))
      else None
  end.
Proof.
  unfold tryImport, handleImport, field.
  destruct (JSON_parse text) as [doc|]; [|reflexivity].
  cbn [option_bind].
  destruct (Get doc (lit "version")) as [v|] eqn:Hv.
  - assert (Ha : exists a, Get doc (lit "activeTracker") = Some a)
      by (destruct doc; try discriminate; eexists; reflexivity).
    assert (Hh : exists h, Get doc (lit "history") = Some h)
      by (destruct doc; try discriminate; eexists; reflexivity).
    destruct Ha as [a Ha], Hh as [h Hh]. rewrite Ha, Hh. cbn [option_bind].
    destruct (ToBoolean v), (ToBoolean a), (ToBoolean h); reflexivity.
  - destruct doc; try discriminate; reflexivity.
Qed.

Lemma processFile_failed_iff text st :
  importFailed (processFile text st) <-> tryImport text (setError [] st) = None.
Proof.
  unfold importFailed, processFile. split.
  - destruct (tryImport text (setError [] st)) as [st'|] eqn:H; [|reflexivity].
    rewrite tryImport_cases in H.
    destruct (JSON_parse text) as [doc|]; [|discriminate].
    destruct (_ && _); [|discriminate]. injection H as <-. cbn.
    intros E. symmetry in E. destruct (invalid_file_message_nonempty E).
  - intros ->. reflexivity.
Qed.

Lemma processFile_failure text st :
  tryImport text (setError [] st) = None ->
  processFile text st = setError invalid_file_message st.
Proof. unfold processFile. intros ->. reflexivity. Qed.

Lemma processFile_success text st doc :
  JSON_parse text = Some doc ->
  passesValidation doc ->
  processFile text st =
  setTab tab_tracker
    (setShowImport false
       (setHistory (coalesce (field doc (lit "history")) (Arr []))
          (setActiveTracker (field doc (lit "activeTracker")) (setError [] st)))).
Proof.
  intros Hp [Hv Hs]. unfold processFile. rewrite tryImport_cases, Hp, Hv.
  cbn [andb]. destruct Hs as [-> | ->]; [reflexivity|].
  rewrite orb_true_r. reflexivity.
Qed.

(** The claim C7 as written fails on a document whose [activeTracker] and
    [history] are present and not null but falsy: it parses, its version
    is truthy, and the import is refused all the same. *)
Lemma import_failure_condition_counterexample :
  exists doc,
    JSON_parse falsy_slots_text = Some doc /\
    ToBoolean (field doc (lit "version")) = true /\
    presentNonNull (field doc (lit "activeTracker")) /\
    presentNonNull (field doc (lit "history")) /\
    importFailed (processFile falsy_slots_text sample_form).
Proof.
  eexists. split; [vm_compute; reflexivity|].
  split; [reflexivity|].
  split; [split; discriminate|].
  split; [split; discriminate|].
  reflexivity.
Qed.

(** C7, amended.  The import fails exactly when the text does not parse,
    or the version of the parsed document is falsy or absent, or its
    [activeTracker] and [history] are both falsy or absent (null, false,
    zero and the empty string included); on a failure the active tracker
    and the history are those of before.  The documents
    [{"version":0,"activeTracker":null,"history":[]}] and [{"version":1}]
    are refused. *)
Theorem import_failure_condition text st :
  (importFailed (processFile text st) <->
   JSON_parse text = None \/
   exists doc,
     JSON_parse text = Some doc /\
     (ToBoolean (field doc (lit "version")) = false \/
      (ToBoolean (field doc (lit "activeTracker")) = false /\
       ToBoolean (field doc (lit "history")) = false))) /\
  (importFailed (processFile text st) ->
   activeTracker (processFile text st) = activeTracker st /\
   history (processFile text st) = history st /\
   processFile text st = setError invalid_file_message st) /\
  importFailed
    (processFile (json "{'version':0,'activeTracker':null,'history':[]}") st) /\
  importFailed (processFile (json "{'version':1}") st).
Proof.
  split; [|split; [|split]].
  - rewrite processFile_failed_iff, tryImport_cases.
    destruct (JSON_parse text) as [doc|]; [|split; [left; reflexivity|reflexivity]].
    destruct (ToBoolean (field doc (lit "version"))) eqn:Hv;
    destruct (ToBoolean (field doc (lit "activeTracker"))) eqn:Ha;
    destruct (ToBoolean (field doc (lit "history"))) eqn:Hh; cbn [andb orb];
      split; intros H; try discriminate; try reflexivity;
      try (right; exists doc; split; [reflexivity|]; rewrite ?Hv, ?Ha, ?Hh; tauto);
      destruct H as [H|(d & Hd & H)]; try discriminate;
      injection Hd as <-; rewrite ?Hv, ?Ha, ?Hh in H;
      destruct H as [H|[H1 H2]]; discriminate.
  - intros H. apply processFile_failed_iff in H.
    rewrite (processFile_failure text st H). repeat split.
  - apply processFile_failed_iff. reflexivity.
  - apply processFile_failed_iff. reflexivity.
Qed.

Lemma import_failure_condition_witness :
  importFailed (processFile falsy_slots_text sample_form) /\
  activeTracker (processFile falsy_slots_text sample_form) = activeTracker sample_form /\
  history (processFile falsy_slots_text sample_form) = history sample_form.
Proof.
  destruct (import_failure_condition falsy_slots_text sample_form) as (H1 & H2 & _).
  assert (F : importFailed (processFile falsy_slots_text sample_form)).
  { apply H1. right. eexists. split; [vm_compute; reflexivity|].
    right. split; reflexivity. }
  split; [exact F|]. destruct (H2 F) as (Ha & Hh & _). split; assumption.
Defined.

(** The claim C9 as written fails on a valid document whose [history] is
    null: what is stored is the empty list, not the null that was given. *)
Lemma import_stores_verbatim_counterexample :
  exists doc,
    JSON_parse null_history_text = Some doc /\
    passesValidation doc /\
    ~ importFailed (processFile null_history_text sample_form) /\
    field doc (lit "history") = Null /\
    history (processFile null_history_text sample_form) <> field doc (lit "history").
Proof.
  eexists. split; [vm_compute; reflexivity|].
  split; [split; [reflexivity|left; reflexivity]|].
  split; [discriminate|]. split; [reflexivity|discriminate].
Qed.

(** C9, amended.  For a document that passes the check, the import stores
    its [activeTracker] as given, and its [history] as given unless that
    is absent or null, in which case the empty list is stored; no tracker
    is inspected or changed.  A document whose tracker has
    [current > target] is accepted and stored as it is. *)
Theorem import_stores_verbatim :
  (forall text st doc,
      JSON_parse text = Some doc ->
      passesValidation doc ->
      ~ importFailed (processFile text st) /\
      activeTracker (processFile text st) = field doc (lit "activeTracker") /\
      history (processFile text st) =
        (if nullish (field doc (lit "history")) then Arr []
         else field doc (lit "history"))) /\
  (forall text st x hs,
      JSON_parse text =
        Some (Obj [ (lit "version", Num 1 0);
                    (lit "activeTracker", of_Tracker x);
                    (lit "history", Arr hs) ]) ->
      Tracker.target x < Tracker.current x ->
      ~ importFailed (processFile text st) /\
      activeTracker (processFile text st) = of_Tracker x /\
      history (processFile text st) = Arr hs).
Proof.
  assert (G : forall text st doc,
             JSON_parse text = Some doc ->
             passesValidation doc ->
             ~ importFailed (processFile text st) /\
             activeTracker (processFile text st) = field doc (lit "activeTracker") /\
             history (processFile text st) =
               (if nullish (field doc (lit "history")) then Arr []
                else field doc (lit "history"))).
  { intros text st doc Hp Hv. rewrite (processFile_success text st doc Hp Hv).
    split; [|split; reflexivity].
    unfold importFailed. cbn. intros E. symmetry in E.
    exact (invalid_file_message_nonempty E). }
  split; [exact G|].
  intros text st x hs Hp _.
  apply (G text st _ Hp). split; [reflexivity|right; reflexivity].
Qed.

Lemma import_stores_verbatim_witness :
  ~ importFailed (processFile overfull_text sample_form) /\
  activeTracker (processFile overfull_text sample_form)
    = of_Tracker (sample_tracker 25 None) /\
  history (processFile overfull_text sample_form) = Arr [].
Proof.
  destruct import_stores_verbatim as [_ H].
  apply (H overfull_text sample_form (sample_tracker 25 None) []).
  - vm_compute. reflexivity.
  - cbn. lia.
Defined.

(** The claim C10 as written fails on a document whose [activeTracker] is
    the number zero: it is not null, the version is truthy, the history is
    absent, and the import is refused. *)
Lemma import_defaults_history_counterexample :
  exists doc,
    JSON_parse zero_tracker_text = Some doc /\
    ToBoolean (field doc (lit "version")) = true /\
    presentNonNull (field doc (lit "activeTracker")) /\
    field doc (lit "history") = Undefined /\
    importFailed (processFile zero_tracker_text sample_form).
Proof.
  eexists. split; [vm_compute; reflexivity|].
  split; [reflexivity|]. split; [split; discriminate|].
  split; reflexivity.
Qed.

(** C10, amended.  A document with a truthy version and a truthy
    [activeTracker] (any object is one) whose [history] is absent or null
    is imported, and the stored history is the empty list. *)
Theorem import_defaults_history text st doc :
  JSON_parse text = Some doc ->
  ToBoolean (field doc (lit "version")) = true ->
  ToBoolean (field doc (lit "activeTracker")) = true ->
  nullish (field doc (lit "history")) = true ->
  ~ importFailed (processFile text st) /\
  activeTracker (processFile text st) = field doc (lit "activeTracker") /\
  history (processFile text st) = Arr [].
Proof.
  intros Hp Hv Ha Hn.
  assert (V : passesValidation doc) by (split; [exact Hv|left; exact Ha]).
  rewrite (processFile_success text st doc Hp V).
  split; [|split; [reflexivity|]].
  - unfold importFailed. cbn. intros E. symmetry in E.
    exact (invalid_file_message_nonempty E).
  - cbn [history setTab setShowImport setHistory]. unfold coalesce.
    rewrite Hn. reflexivity.
Qed.

Lemma import_defaults_history_witness :
  ~ importFailed (processFile no_history_text sample_form) /\
  activeTracker (processFile no_history_text sample_form)
    = Obj [(lit "id", Str (lit "a"))] /\
  history (processFile no_history_text sample_form) = Arr [].
Proof.
  apply (import_defaults_history no_history_text sample_form
           (Obj [ (lit "version", Num 1 0);
                  (lit "activeTracker", Obj [(lit "id", Str (lit "a"))]) ]));
    vm_compute; reflexivity.
Defined.

(** ** [JSON.parse] after [JSON.stringify] *)

Lemma skip_ws_blank l s : blank l -> skip_ws (l ++ s) = skip_ws s.
Proof.
  induction 1 as [|c l Hc _ IH]; [reflexivity|].
  cbn [app skip_ws]. rewrite Hc. exact IH.
Qed.

Lemma skip_ws_solid c s : is_json_ws c = false -> skip_ws (c :: s) = c :: s.
Proof. intros H. cbn [skip_ws]. rewrite H. reflexivity. Qed.

Lemma blank_gap gap indent : blank gap -> blank indent -> blank (indent ++ gap).
Proof. intros Hg H. apply Forall_app. split; assumption. Qed.

Lemma blank_gap_of_space space : blank (gap_of_space space).
Proof.
  apply Forall_forall. intros c Hc. apply repeat_spec in Hc. subst c. reflexivity.
Qed.

Lemma blank_line gap inner : blank inner -> blank (line gap inner).
Proof.
  intros H. destruct gap; [constructor|]. constructor; [reflexivity|exact H].
Qed.

Lemma blank_colon gap : blank (colon_space gap).
Proof. destruct gap; repeat constructor. Qed.

(** *** Decimal digits *)

Lemma digit_char_decimal d :
  (d < 10)%N -> digit_char d = (48 + d)%N /\ is_digit (digit_char d) = true.
Proof.
  intros H. unfold digit_char, is_digit.
  destruct (N.ltb_spec d 10); [|lia].
  split; [reflexivity|].
  apply andb_true_iff. split; apply N.leb_le; lia.
Qed.

(** The digits [digits_fuel] puts in front of [acc], described by their
    value, most significant first. *)
Lemma digits_fuel_decimal f : forall n acc,
  (n < 10 ^ N.of_nat (S f))%N ->
  exists ds,
    digits_fuel (S f) 10 n acc = ds ++ acc /\
    ds <> [] /\
    Forall (fun c => is_digit c = true) ds /\
    (forall a, fold_left (fun a c => a * 10 + (c - 48))%N ds a
               = (a * 10 ^ N.of_nat (List.length ds) + n)%N) /\
    (n <> 0%N -> exists c r, ds = c :: r /\ c <> 48%N).
Proof.
  induction f as [|f IH]; intros n acc Hn.
  - assert (Hr : (n < 10)%N) by (cbn in Hn; lia).
    destruct (digit_char_decimal _ Hr) as [Hc Hd].
    cbn [digits_fuel]. rewrite (N.mod_small n 10 Hr), (N.div_small n 10 Hr).
    cbn [N.eqb]. exists [digit_char n]. split; [reflexivity|].
    split; [discriminate|]. split; [repeat constructor; exact Hd|].
    split.
    + intros a. cbn. rewrite Hc. lia.
    + intros Hn0. eexists _, _. split; [reflexivity|]. rewrite Hc. lia.
  - remember (S f) as g eqn:Hg. cbn [digits_fuel].
    assert (Hr : (n mod 10 < 10)%N) by (apply N.mod_lt; lia).
    destruct (digit_char_decimal _ Hr) as [Hc Hd].
    assert (Hdm : n = (10 * (n / 10) + n mod 10)%N) by (apply N.div_mod; lia).
    destruct (N.eqb_spec (n / 10) 0) as [Hq|Hq].
    + exists [digit_char (n mod 10)]. split; [reflexivity|].
      split; [discriminate|]. split; [repeat constructor; exact Hd|].
      split.
      * intros a. cbn. rewrite Hc. lia.
      * intros Hn0. eexists _, _. split; [reflexivity|]. rewrite Hc. lia.
    + subst g.
      destruct (IH (n / 10)%N (digit_char (n mod 10) :: acc))
        as (ds & He & Hne & Hall & Hval & Hhd).
      { rewrite Nat2N.inj_succ, N.pow_succ_r' in Hn.
        apply N.Div0.div_lt_upper_bound. exact Hn. }
      exists (ds ++ [digit_char (n mod 10)]). split.
      { rewrite He, <- app_assoc. reflexivity. }
      split; [destruct ds; discriminate|].
      split; [apply Forall_app; split; [exact Hall|repeat constructor; exact Hd]|].
      split.
      * intros a. rewrite fold_left_app, Hval. cbn [fold_left]. rewrite Hc.
        rewrite length_app. cbn [List.length]. rewrite Nat.add_1_r.
        rewrite Nat2N.inj_succ, N.pow_succ_r', (N.add_comm 48), N.add_sub.
        clear - Hdm. generalize dependent (n / 10)%N.
        generalize (n mod 10)%N, (10 ^ N.of_nat (List.length ds))%N. lia.
      * intros _. destruct (Hhd Hq) as (c & r & -> & Hc0).
        exists c, (r ++ [digit_char (n mod 10)]). split; [reflexivity|exact Hc0].
Qed.

Lemma N_toString_decimal n :
  exists ds,
    N_toString 10 n = ds /\
    ds <> [] /\
    Forall (fun c => is_digit c = true) ds /\
    digits_value ds = n /\
    (n <> 0%N -> exists c r, ds = c :: r /\ c <> 48%N).
Proof.
  unfold N_toString.
  destruct (digits_fuel_decimal (N.to_nat (N.log2 n)) n [])
    as (ds & He & Hne & Hall & Hval & Hhd).
  - rewrite Nat2N.inj_succ, N2Nat.id.
    destruct (N.eq_dec n 0) as [->|Hn]; [reflexivity|].
    apply N.lt_le_trans with (2 ^ N.succ (N.log2 n))%N.
    + apply N.log2_spec. lia.
    + apply N.pow_le_mono_l. lia.
  - exists ds. rewrite He, app_nil_r. split; [reflexivity|].
    split; [exact Hne|]. split; [exact Hall|]. split; [|exact Hhd].
    unfold digits_value. rewrite Hval. lia.
Qed.

Lemma eat_hit c r : eat c (c :: r) = Some r.
Proof. cbn [eat]. rewrite N.eqb_refl. reflexivity. Qed.

Lemma eat_miss c x r : x <> c -> eat c (x :: r) = None.
Proof. intros H. cbn [eat]. destruct (N.eqb_spec x c); [contradiction|reflexivity]. Qed.

Lemma is_digit_range c : is_digit c = true -> (48 <= c <= 57)%N.
Proof.
  unfold is_digit. intros H. apply andb_true_iff in H. destruct H as [H1 H2].
  apply N.leb_le in H1, H2. lia.
Qed.

(** What follows a serialized value does not continue a number. *)
Lemma follows_ends_number rest :
  follows rest ->
  eat 46 rest = None /\ eat 101 rest = None /\ eat 69 rest = None /\
  match rest with [] => True | c :: _ => is_digit c = false end.
Proof.
  destruct rest as [|c r]; [repeat split|].
  intros [-> | [-> | [-> | ->]]]; repeat split.
Qed.

Lemma span_digits_app ds rest :
  Forall (fun c => is_digit c = true) ds ->
  match rest with [] => True | c :: _ => is_digit c = false end ->
  span_digits (ds ++ rest) = (ds, rest).
Proof.
  intros Hall Hend. induction Hall as [|c ds Hc _ IH].
  - destruct rest as [|c r]; [reflexivity|]. cbn [app span_digits].
    rewrite Hend. reflexivity.
  - cbn [app span_digits]. rewrite Hc, IH. reflexivity.
Qed.

Lemma some_digits_app ds rest :
  ds <> [] ->
  Forall (fun c => is_digit c = true) ds ->
  match rest with [] => True | c :: _ => is_digit c = false end ->
  some_digits (ds ++ rest) = Some (ds, rest).
Proof.
  intros Hne Hall Hend. unfold some_digits.
  rewrite (span_digits_app ds rest Hall Hend).
  destruct ds; [contradiction|reflexivity].
Qed.

(** The digits of a natural number, read back. *)
Lemma parse_digits_back n rest :
  follows rest ->
  exists int,
    (match eat 48 (N_toString 10 n ++ rest) with
     | Some r => Some ([48%N], r)
     | None => some_digits (N_toString 10 n ++ rest)
     end) = Some (int, rest) /\
    digits_value int = n /\
    eat 45 (N_toString 10 n ++ rest) = None.
Proof.
  intros Hf. destruct (follows_ends_number rest Hf) as (_ & _ & _ & Hend).
  destruct (N.eq_dec n 0) as [->|Hn].
  - exists [48%N]. split; [reflexivity|split; reflexivity].
  - destruct (N_toString_decimal n) as (ds & -> & Hne & Hall & Hval & Hhd).
    destruct (Hhd Hn) as (c & r & -> & Hc). exists (c :: r).
    cbn [app]. rewrite (eat_miss 48 c _ Hc).
    split; [exact (some_digits_app (c :: r) rest Hne Hall Hend)|].
    split; [exact Hval|].
    apply eat_miss. inversion Hall as [|? ? Hd _]; subst.
    apply is_digit_range in Hd. lia.
Qed.

Lemma make_number_integer digits m : make_number digits m 0 = Num (Number_of m) 0.
Proof.
  unfold make_number. destruct (Z.eqb_spec m 0) as [->|_]; [reflexivity|].
  change (0 <=? 0) with true. cbv iota. change (- 0) with 0.
  rewrite Z.pow_0_r, Z.mul_1_r. reflexivity.
Qed.

(** The digits of an integer that is a double are read back by the number
    grammar as that number. *)
Lemma parse_number_integer z rest :
  follows rest ->
  Number_of z = z ->
  parse_number (Z_toString 10 z ++ rest) = Some (Num z 0, rest).
Proof.
  intros Hf Hz. destruct (follows_ends_number rest Hf) as (H46 & H101 & H69 & _).
  unfold Z_toString. destruct (Z.ltb_spec z 0) as [Hneg|Hpos].
  - destruct (parse_digits_back (Z.abs_N z) rest Hf) as (int & Hint & Hval & _).
    unfold parse_number. cbn [app]. rewrite eat_hit, Hint. cbn [option_bind].
    rewrite H46. cbn [option_bind]. rewrite H101, H69. cbn [option_bind].
    rewrite app_nil_r, Hval. cbn [List.length Z.of_nat Z.sub Z.opp Z.add].
    rewrite make_number_integer.
    replace (- Z.of_N (Z.abs_N z)) with z by lia. rewrite Hz. reflexivity.
  - destruct (parse_digits_back (Z.to_N z) rest Hf) as (int & Hint & Hval & H45).
    unfold parse_number. rewrite H45, Hint. cbn [option_bind].
    rewrite H46. cbn [option_bind]. rewrite H101, H69. cbn [option_bind].
    rewrite app_nil_r, Hval. cbn [List.length Z.of_nat Z.sub Z.opp Z.add].
    rewrite make_number_integer.
    replace (Z.of_N (Z.to_N z)) with z by lia. rewrite Hz. reflexivity.
Qed.

Lemma Z_toString_head z :
  exists c r, Z_toString 10 z = c :: r /\ (c = 45%N \/ is_digit c = true).
Proof.
  unfold Z_toString. destruct (Z.ltb_spec z 0).
  - eexists _, _. split; [reflexivity|left; reflexivity].
  - destruct (N_toString_decimal (Z.to_N z)) as (ds & -> & Hne & Hall & _).
    destruct ds as [|c r]; [contradiction|]. exists c, r.
    split; [reflexivity|]. right. inversion Hall; assumption.
Qed.

(** *** Strings *)

Lemma hex_digit_back d : (d < 16)%N -> digit_value 16 (digit_char d) = Some d.
Proof.
  intros H.
  assert (C : (d = 0 \/ d = 1 \/ d = 2 \/ d = 3 \/ d = 4 \/ d = 5 \/ d = 6 \/ d = 7 \/
               d = 8 \/ d = 9 \/ d = 10 \/ d = 11 \/ d = 12 \/ d = 13 \/ d = 14 \/
               d = 15)%N) by lia.
  repeat (destruct C as [->|C]; [reflexivity|]). subst d. reflexivity.
Qed.

Lemma parse_chars_plain c r :
  c <> 34%N -> c <> 92%N -> (32 <= c)%N ->
  parse_chars (c :: r) =
  let? (str, rest) := parse_chars r in Some (c :: str, rest).
Proof.
  intros H34 H92 H32. cbn [parse_chars].
  destruct (N.eqb_spec c 34); [contradiction|].
  destruct (N.eqb_spec c 92); [contradiction|].
  destruct (N.ltb_spec c 32); [lia|]. reflexivity.
Qed.

Lemma parse_chars_unicode c r :
  (c < 65536)%N ->
  parse_chars (UnicodeEscape c ++ r) =
  let? (str, rest) := parse_chars r in Some (c :: str, rest).
Proof.
  intros H. unfold UnicodeEscape. cbn [app parse_chars N.eqb Pos.eqb].
  unfold hex4.
  rewrite !hex_digit_back;
    try (apply N.mod_lt; discriminate);
    try (apply N.Div0.div_lt_upper_bound; exact H).
  cbn [option_bind].
  replace (((c / 4096 * 16 + (c / 256) mod 16) * 16 + (c / 16) mod 16) * 16
           + c mod 16)%N with c; [reflexivity|].
  clear H. zify. Z.to_euclidean_division_equations. lia.
Qed.

Lemma surrogate_range c :
  is_leading_surrogate c = true \/ is_trailing_surrogate c = true ->
  (55296 <= c <= 57343)%N.
Proof.
  unfold is_leading_surrogate, is_trailing_surrogate.
  intros [H|H]; apply andb_true_iff in H; destruct H as [H1 H2];
    apply N.leb_le in H1, H2; lia.
Qed.

(** A quoted string is read back up to its closing quote. *)
Lemma parse_chars_quote n : forall s rest,
  (List.length s <= n)%nat ->
  parse_chars (quote_chars s ++ 34%N :: rest) = Some (s, rest).
Proof.
  induction n as [|n IH]; intros s rest Hlen.
  - destruct s; [|cbn in Hlen; lia]. cbn. reflexivity.
  - destruct s as [|c r]; [reflexivity|]. cbn [List.length] in Hlen.
    assert (Hr : parse_chars (quote_chars r ++ 34%N :: rest) = Some (r, rest))
      by (apply IH; lia).
    cbn [quote_chars].
    destruct (N.eqb_spec c 8) as [->|H8];
      [cbn [app]; cbn; rewrite Hr; reflexivity|].
    destruct (N.eqb_spec c 9) as [->|H9];
      [cbn [app]; cbn; rewrite Hr; reflexivity|].
    destruct (N.eqb_spec c 10) as [->|H10];
      [cbn [app]; cbn; rewrite Hr; reflexivity|].
    destruct (N.eqb_spec c 12) as [->|H12];
      [cbn [app]; cbn; rewrite Hr; reflexivity|].
    destruct (N.eqb_spec c 13) as [->|H13];
      [cbn [app]; cbn; rewrite Hr; reflexivity|].
    destruct (N.eqb_spec c 34) as [->|H34];
      [cbn [app]; cbn; rewrite Hr; reflexivity|].
    destruct (N.eqb_spec c 92) as [->|H92];
      [cbn [app]; cbn; rewrite Hr; reflexivity|].
    destruct (N.ltb_spec c 32) as [Hlow|Hhigh].
    { rewrite <- app_assoc, parse_chars_unicode by lia. rewrite Hr. reflexivity. }
    destruct (is_leading_surrogate c) eqn:Hlead.
    + assert (Hc := surrogate_range c (or_introl Hlead)).
      destruct r as [|d r'].
      * rewrite parse_chars_unicode by lia. reflexivity.
      * destruct (is_trailing_surrogate d) eqn:Htrail.
        -- assert (Hd := surrogate_range d (or_intror Htrail)).
           cbn [app]. rewrite !parse_chars_plain by lia.
           rewrite (IH r' rest) by (cbn [List.length] in Hlen; lia). reflexivity.
        -- rewrite <- app_assoc, parse_chars_unicode by lia. rewrite Hr. reflexivity.
    + destruct (is_trailing_surrogate c) eqn:Htrail.
      * assert (Hc := surrogate_range c (or_intror Htrail)).
        rewrite <- app_assoc, parse_chars_unicode by lia. rewrite Hr. reflexivity.
      * cbn [app]. rewrite parse_chars_plain by lia. rewrite Hr. reflexivity.
Qed.

(** *** Arrays and objects *)

Lemma plain_Arr items : plain (Arr items) <-> Forall plain items.
Proof.
  induction items as [|x l IH].
  - split; [constructor|exact (fun _ => I)].
  - change (plain (Arr (x :: l))) with (plain x /\ plain (Arr l)). split.
    + intros [Hx Hl]. constructor; [exact Hx|apply IH; exact Hl].
    + intros H. inversion H; subst. split; [assumption|apply IH; assumption].
Qed.

Lemma plain_Obj props :
  plain (Obj props) <->
  NoDup (map fst props) /\ Forall (fun kv => plain (snd kv)) props.
Proof.
  cbn [plain]. apply and_iff_compat_l.
  induction props as [|[k x] l IH].
  - split; [constructor|exact (fun _ => I)].
  - split.
    + intros [Hx Hl]. constructor; [exact Hx|apply IH; exact Hl].
    + intros H. inversion H; subst. split; [assumption|apply IH; assumption].
Qed.

Lemma join_one sep x : join sep [x] = x.
Proof. reflexivity. Qed.

Lemma join_more sep x y r : join sep (x :: y :: r) = x ++ sep ++ join sep (y :: r).
Proof. reflexivity. Qed.

Lemma serialize_Arr_cons gap indent x l :
  serialize gap indent (Arr (x :: l)) =
  91%N :: line gap (indent ++ gap)
    ++ block gap (indent ++ gap) indent 93
         (map (serialize gap (indent ++ gap)) (x :: l)).
Proof. reflexivity. Qed.

Lemma serialize_Obj_cons gap indent kv l :
  Forall (fun kv => plain (snd kv)) (kv :: l) ->
  serialize gap indent (Obj (kv :: l)) =
  123%N :: line gap (indent ++ gap)
    ++ block gap (indent ++ gap) indent 125
         (map (member_text gap (indent ++ gap)) (kv :: l)).
Proof.
  intros H.
  assert (E : forall ps, Forall (fun kv => plain (snd kv)) ps ->
            (fix members (l : list (jsstring * value)) : list jsstring :=
               match l with
               | [] => []
               | (k, x) :: r =>
                   match x with
                   | Undefined => members r
                   | _ => (QuoteJSONString k ++ 58%N :: colon_space gap
                             ++ serialize gap (indent ++ gap) x) :: members r
                   end
               end) ps = map (member_text gap (indent ++ gap)) ps).
  { induction 1 as [|[k x] r Hx _ IH]; [reflexivity|].
    cbn [map]. rewrite <- IH. unfold member_text. cbn [fst snd] in *.
    destruct x; try reflexivity. destruct Hx. }
  cbn [serialize]. rewrite (E _ H). destruct kv as [k x]. reflexivity.
Qed.

(** Every serialized value starts with a code unit that is neither white
    space nor a closing bracket; a number starts with a digit or a minus
    sign, any other value with a code unit that names its kind. *)
Lemma serialize_head gap indent v :
  plain v ->
  exists c r,
    serialize gap indent v = c :: r /\
    is_json_ws c = false /\ c <> 93%N /\ c <> 125%N.
Proof.
  intros Hp. destruct v as [| |[|]|m p|s|[|x l]|[|[k y] l]].
  - destruct Hp.
  - eexists _, _; split; [reflexivity|repeat split; discriminate].
  - eexists _, _; split; [reflexivity|repeat split; discriminate].
  - eexists _, _; split; [reflexivity|repeat split; discriminate].
  - destruct Hp as [-> [_ Hfin]].
    destruct (Z_toString_head m) as (c & r & He & Hc).
    exists c, r. split; [cbn [serialize]; rewrite Hfin; exact He|].
    assert (c = 45 \/ 48 <= c <= 57)%N as Hr
      by (destruct Hc as [->|Hd]; [left; reflexivity|right; apply is_digit_range, Hd]).
    unfold is_json_ws.
    destruct (N.eqb_spec c 32), (N.eqb_spec c 9), (N.eqb_spec c 10), (N.eqb_spec c 13);
      cbn [orb]; lia.
  - eexists _, _; split; [reflexivity|repeat split; discriminate].
  - eexists _, _; split; [reflexivity|repeat split; discriminate].
  - eexists _, _; split; [apply serialize_Arr_cons|repeat split; discriminate].
  - eexists _, _; split; [reflexivity|repeat split; discriminate].
  - apply plain_Obj in Hp. destruct Hp as [_ Hp].
    eexists _, _; split; [apply (serialize_Obj_cons gap indent (k, y) l Hp)|
                          repeat split; discriminate].
Qed.

Lemma parse_value_blank f pre s :
  blank pre -> parse_value f (pre ++ s) = parse_value f s.
Proof.
  intros H. destruct f; [reflexivity|]. cbn [parse_value].
  rewrite (skip_ws_blank pre s H). reflexivity.
Qed.

Lemma parse_value_number f c r :
  c = 45%N \/ is_digit c = true ->
  parse_value (S f) (c :: r) = parse_number (c :: r).
Proof.
  intros Hc.
  assert (c = 45 \/ 48 <= c <= 57)%N as Hr
    by (destruct Hc as [->|Hd]; [left; reflexivity|right; apply is_digit_range, Hd]).
  cbn [parse_value skip_ws]. unfold is_json_ws.
  destruct (N.eqb_spec c 32), (N.eqb_spec c 9), (N.eqb_spec c 10), (N.eqb_spec c 13);
    try lia. cbn [orb].
  destruct (N.eqb_spec c 123), (N.eqb_spec c 91), (N.eqb_spec c 34),
    (N.eqb_spec c 116), (N.eqb_spec c 102), (N.eqb_spec c 110); try lia.
  reflexivity.
Qed.

Lemma join_head sep x ps : exists t, join sep (x :: ps) = x ++ t.
Proof.
  destruct ps as [|y r]; [exists []; rewrite app_nil_r|eexists]; reflexivity.
Qed.

(** After the last item of a block: the line break and the indentation,
    if any, and the closing bracket. *)
Lemma eat_closing gap indent closing rest :
  blank indent -> is_json_ws closing = false -> closing <> 44%N ->
  eat 44 (skip_ws (line gap indent ++ closing :: rest)) = None /\
  eat closing (skip_ws (line gap indent ++ closing :: rest)) = Some rest.
Proof.
  intros Hb Hc H44.
  rewrite skip_ws_blank by (apply blank_line, Hb).
  rewrite (skip_ws_solid _ _ Hc). split; [apply eat_miss; exact H44|apply eat_hit].
Qed.

Lemma follows_comma s : follows (44%N :: s).
Proof. left. reflexivity. Qed.

Lemma follows_closing gap indent closing rest :
  closing = 93%N \/ closing = 125%N ->
  follows (line gap indent ++ closing :: rest).
Proof.
  intros H. destruct gap; cbn [line app follows]; tauto.
Qed.

Lemma define_prop_fresh k v acc :
  ~ In k (map fst acc) -> define_prop k v acc = acc ++ [(k, v)].
Proof.
  induction acc as [|[k' v'] acc IH]; intros Hn; [reflexivity|].
  cbn [define_prop app]. cbn [map fst In] in Hn.
  destruct (jsstring_eqb k k') eqn:E.
  - apply jsstring_eqb_eq in E. subst k'. tauto.
  - rewrite IH by tauto. reflexivity.
Qed.

Lemma fold_define_props l : forall acc,
  NoDup (map fst (acc ++ l)) ->
  fold_left (fun o kv => define_prop (fst kv) (snd kv) o) l acc = acc ++ l.
Proof.
  induction l as [|[k v] l IH]; intros acc Hnd.
  - rewrite app_nil_r. reflexivity.
  - cbn [fold_left fst snd]. rewrite define_prop_fresh.
    + rewrite IH; rewrite <- app_assoc; [reflexivity|exact Hnd].
    + rewrite map_app in Hnd. cbn [map fst] in Hnd.
      apply NoDup_remove_2 in Hnd. intros Hin. apply Hnd.
      apply in_or_app. left. exact Hin.
Qed.

Lemma build_object_distinct props :
  NoDup (map fst props) -> build_object props = Obj props.
Proof.
  intros H. unfold build_object. rewrite (fold_define_props props []); [reflexivity|exact H].
Qed.

Lemma parse_serialize gap f :
  blank gap ->
  (forall v indent rest,
      (weight v <= f)%nat -> plain v -> blank indent -> follows rest ->
      parse_value f (serialize gap indent v ++ rest) = Some (v, rest)) /\
  (forall x l inner indent pre rest,
      (list_sum (map (fun x => S (weight x)) (x :: l)) <= f)%nat ->
      Forall plain (x :: l) -> blank inner -> blank indent -> blank pre ->
      parse_elements f
        (pre ++ block gap inner indent 93 (map (serialize gap inner) (x :: l)) ++ rest)
      = Some (x :: l, rest)) /\
  (forall kv l inner indent pre rest,
      (list_sum (map (fun kv => S (weight (snd kv))) (kv :: l)) <= f)%nat ->
      Forall (fun kv => plain (snd kv)) (kv :: l) ->
      blank inner -> blank indent -> blank pre ->
      parse_members f
        (pre ++ block gap inner indent 125 (map (member_text gap inner) (kv :: l)) ++ rest)
      = Some (kv :: l, rest)).
Proof.
  intros Hgap.
  induction f as [|f (IHv & IHe & IHm)].
  - split; [|split].
    + intros v indent rest Hw. destruct v; cbn in Hw; lia.
    + intros x l inner indent pre rest Hw. cbn in Hw. lia.
    + intros kv l inner indent pre rest Hw. cbn in Hw. lia.
  - split; [|split].
    + intros v indent rest Hw Hp Hb Hf.
      destruct v as [| |[|]|m p|s|[|x l]|[|kv l]].
      * destruct Hp.
      * reflexivity.
      * reflexivity.
      * reflexivity.
      * destruct Hp as [-> [Hdouble Hfin]]. cbn [serialize]. rewrite Hfin.
        cbn [number_text N.eqb].
        destruct (Z_toString_head m) as (c & r & He & Hc).
        rewrite He. cbn [app]. rewrite (parse_value_number f c _ Hc).
        change (c :: r ++ rest) with ((c :: r) ++ rest). rewrite <- He.
        apply parse_number_integer; assumption.
      * cbn [serialize QuoteJSONString app]. rewrite <- app_assoc. cbn [app].
        change (parse_value (S f) (34%N :: quote_chars s ++ 34%N :: rest))
          with (let? (str, r') := parse_chars (quote_chars s ++ 34%N :: rest) in
                Some (Str str, r')).
        rewrite (parse_chars_quote (List.length s) s rest (le_n _)). reflexivity.
      * reflexivity.
      * apply plain_Arr in Hp. cbn [weight] in Hw.
        assert (Hinner : blank (indent ++ gap)) by (apply blank_gap; assumption).
        rewrite serialize_Arr_cons.
        remember (indent ++ gap) as inner eqn:Einner.
        assert (Hin : blank (line gap inner)) by apply blank_line, Hinner.
        remember (line gap inner) as pre eqn:Hpre.
        cbn [app]. rewrite <- app_assoc.
        change (parse_value (S f) (91%N :: ?R))
          with (match eat 93 (skip_ws R) with
                | Some r' => Some (Arr [], r')
                | None => let? (vs, r') := parse_elements f R in Some (Arr vs, r')
                end).
        assert (Hmiss : eat 93 (skip_ws (pre ++ block gap inner indent 93
                           (map (serialize gap inner) (x :: l)) ++ rest)) = None).
        { rewrite skip_ws_blank by exact Hin.
          inversion Hp as [|? ? Hx _]; subst x0 l0.
          destruct (serialize_head gap inner x Hx) as (c & r & He & Hws & H93 & _).
          unfold block. cbn [map].
          destruct (join_head (44%N :: line gap inner) (serialize gap inner x)
                      (map (serialize gap inner) l)) as [t ->].
          rewrite He. cbn [app]. rewrite (skip_ws_solid _ _ Hws).
          apply eat_miss, H93. }
        rewrite Hmiss.
        rewrite (IHe x l inner indent pre rest);
          [reflexivity|lia|exact Hp|exact Hinner|exact Hb|exact Hin].
      * reflexivity.
      * apply plain_Obj in Hp. destruct Hp as [Hnd Hp]. cbn [weight] in Hw.
        assert (Hinner : blank (indent ++ gap)) by (apply blank_gap; assumption).
        rewrite (serialize_Obj_cons gap indent kv l Hp).
        remember (indent ++ gap) as inner eqn:Einner.
        assert (Hin : blank (line gap inner)) by apply blank_line, Hinner.
        remember (line gap inner) as pre eqn:Hpre.
        cbn [app]. rewrite <- app_assoc.
        change (parse_value (S f) (123%N :: ?R))
          with (match eat 125 (skip_ws R) with
                | Some r' => Some (Obj [], r')
                | None => let? (ms, r') := parse_members f R in
                          Some (build_object ms, r')
                end).
        assert (Hmiss : eat 125 (skip_ws (pre ++ block gap inner indent 125
                           (map (member_text gap inner) (kv :: l)) ++ rest)) = None).
        { rewrite skip_ws_blank by exact Hin.
          unfold block. cbn [map].
          destruct (join_head (44%N :: line gap inner) (member_text gap inner kv)
                      (map (member_text gap inner) l)) as [t ->].
          unfold member_text, QuoteJSONString. cbn [app].
          rewrite skip_ws_solid by reflexivity.
          apply eat_miss. discriminate. }
        rewrite Hmiss.
        rewrite (IHm kv l inner indent pre rest);
          [|lia|exact Hp|exact Hinner|exact Hb|exact Hin].
        cbn [option_bind]. rewrite (build_object_distinct _ Hnd). reflexivity.
    + intros x l inner indent pre rest Hw Hp Hbi Hb Hbp.
      inversion Hp as [|? ? Hx Hl]; subst x0 l0. cbn [map list_sum fold_right] in Hw.
      change (parse_elements (S f) ?s)
        with (let? (v, r) := parse_value f s in
              match eat 44 (skip_ws r) with
              | Some r' => let? (vs, r'') := parse_elements f r' in Some (v :: vs, r'')
              | None => let? r' := eat 93 (skip_ws r) in Some ([v], r')
              end).
      rewrite (parse_value_blank f pre _ Hbp). unfold block. cbn [map].
      destruct l as [|y l].
      * cbn [map list_sum fold_right] in Hw. cbn [map]. rewrite join_one. flatten_app.
        rewrite (IHv x inner _ ltac:(lia) Hx Hbi
                   (follows_closing gap indent 93 rest (or_introl eq_refl))).
        cbn [option_bind].
        destruct (eat_closing gap indent 93 rest Hb eq_refl ltac:(discriminate))
          as [-> ->].
        reflexivity.
      * cbn [map list_sum fold_right] in Hw. cbn [map]. rewrite join_more. flatten_app.
        rewrite (IHv x inner _ ltac:(lia) Hx Hbi (follows_comma _)).
        cbn [option_bind]. rewrite skip_ws_solid by reflexivity. rewrite eat_hit.
        pose proof (IHe y l inner indent (line gap inner) rest) as IH.
        unfold block in IH. cbn [map] in IH.
        repeat (progress cbn [app] in IH || rewrite <- app_assoc in IH).
        rewrite IH; [reflexivity| |exact Hl|exact Hbi|exact Hb|apply blank_line, Hbi].
        cbn [map list_sum fold_right]. lia.
    + intros [k x] l inner indent pre rest Hw Hp Hbi Hb Hbp.
      inversion Hp as [|? ? Hx Hl]; subst x0 l0. cbn [snd] in Hx.
      change (parse_members (S f) ?s)
        with (let? r := eat 34 (skip_ws s) in
              let? (k, r) := parse_chars r in
              let? r := eat 58 (skip_ws r) in
              let? (v, r) := parse_value f r in
              match eat 44 (skip_ws r) with
              | Some r' => let? (ms, r'') := parse_members f r' in
                           Some ((k, v) :: ms, r'')
              | None => let? r' := eat 125 (skip_ws r) in Some ([(k, v)], r')
              end).
      rewrite (skip_ws_blank pre _ Hbp). unfold block. cbn [map].
      destruct l as [|kv l].
      * cbn [map list_sum fold_right snd] in Hw. cbn [map]. rewrite join_one.
        unfold member_text at 1, QuoteJSONString. cbn [fst snd]. flatten_app.
        rewrite skip_ws_solid by reflexivity. rewrite eat_hit. cbn [option_bind].
        rewrite (parse_chars_quote (List.length k) k _ (le_n _)). cbn [option_bind].
        rewrite skip_ws_solid by reflexivity. rewrite eat_hit. cbn [option_bind].
        rewrite parse_value_blank by apply blank_colon.
        rewrite (IHv x inner _ ltac:(lia) Hx Hbi
                   (follows_closing gap indent 125 rest (or_intror eq_refl))).
        cbn [option_bind].
        destruct (eat_closing gap indent 125 rest Hb eq_refl ltac:(discriminate))
          as [-> ->].
        reflexivity.
      * cbn [map list_sum fold_right snd] in Hw. cbn [map]. rewrite join_more.
        unfold member_text at 1, QuoteJSONString. cbn [fst snd]. flatten_app.
        rewrite skip_ws_solid by reflexivity. rewrite eat_hit. cbn [option_bind].
        rewrite (parse_chars_quote (List.length k) k _ (le_n _)). cbn [option_bind].
        rewrite skip_ws_solid by reflexivity. rewrite eat_hit. cbn [option_bind].
        rewrite parse_value_blank by apply blank_colon.
        rewrite (IHv x inner _ ltac:(lia) Hx Hbi (follows_comma _)).
        cbn [option_bind]. rewrite skip_ws_solid by reflexivity. rewrite eat_hit.
        pose proof (IHm kv l inner indent (line gap inner) rest) as IH.
        unfold block in IH. cbn [map] in IH.
        repeat (progress cbn [app] in IH || rewrite <- app_assoc in IH).
        rewrite IH; [reflexivity| |exact Hl|exact Hbi|exact Hb|apply blank_line, Hbi].
        cbn [map list_sum fold_right]. lia.
Qed.

(** The recursion depth is covered by the length of the text. *)
Lemma join_length_bound {A} (w : A -> nat) (g : A -> jsstring) sep l :
  (1 <= List.length sep)%nat ->
  Forall (fun a => (w a <= List.length (g a))%nat) l ->
  (list_sum (map (fun a => S (w a)) l) <= List.length (join sep (map g l)) + 1)%nat.
Proof.
  intros Hsep Hall. induction Hall as [|a l Ha Hl IH]; [cbn; lia|].
  destruct l as [|b l].
  - cbn [map list_sum fold_right join]. lia.
  - cbn [map] in *. rewrite join_more, !length_app.
    cbn [list_sum fold_right] in *. lia.
Qed.

Lemma list_sum_member {A} (w : A -> nat) a l :
  In a l -> (w a <= list_sum (map w l))%nat.
Proof.
  induction l as [|b t IH]; intros H; [destruct H|].
  cbn [map list_sum fold_right]. destruct H as [->|H]; [lia|].
  specialize (IH H). unfold list_sum in IH. lia.
Qed.

Lemma weight_le_length gap n : forall v indent,
  (weight v <= n)%nat -> plain v ->
  (weight v <= List.length (serialize gap indent v))%nat.
Proof.
  induction n as [|n IH]; intros v indent Hw Hp.
  - destruct v; cbn in Hw; lia.
  - destruct v as [| |[|]|m p|s|[|x l]|[|kv l]]; try (cbn; lia).
    + destruct (serialize_head gap indent (Num m p) Hp) as (c & r & -> & _). cbn. lia.
    + apply plain_Arr in Hp.
      change (weight (Arr (x :: l)))
        with (S (list_sum (map (fun y => S (weight y)) (x :: l)))) in Hw |- *.
      rewrite serialize_Arr_cons. unfold block.
      cbn [List.length app]. rewrite !length_app. cbn [List.length].
      pose proof (join_length_bound weight (serialize gap (indent ++ gap))
                    (44%N :: line gap (indent ++ gap)) (x :: l)) as B.
      cbn [List.length] in B. specialize (B ltac:(lia)).
      assert (Hall : Forall (fun a => (weight a
                                       <= List.length (serialize gap (indent ++ gap) a))%nat)
                       (x :: l)).
      { apply Forall_forall. intros a Ha. apply IH.
        - pose proof (list_sum_member (fun y => S (weight y)) a (x :: l) Ha) as Hm.
          cbn beta in Hm. lia.
        - rewrite Forall_forall in Hp. apply Hp, Ha. }
      specialize (B Hall). lia.
    + apply plain_Obj in Hp. destruct Hp as [_ Hp].
      change (weight (Obj (kv :: l)))
        with (S (list_sum (map (fun y => S (weight (snd y))) (kv :: l)))) in Hw |- *.
      rewrite (serialize_Obj_cons gap indent kv l Hp). unfold block.
      cbn [List.length app]. rewrite !length_app. cbn [List.length].
      pose proof (join_length_bound (fun y => weight (snd y))
                    (member_text gap (indent ++ gap))
                    (44%N :: line gap (indent ++ gap)) (kv :: l)) as B.
      cbn [List.length] in B. specialize (B ltac:(lia)).
      assert (Hall : Forall (fun a => (weight (snd a)
                                       <= List.length (member_text gap (indent ++ gap) a))%nat)
                       (kv :: l)).
      { apply Forall_forall. intros a Ha. unfold member_text.
        rewrite length_app. cbn [List.length]. rewrite length_app.
        assert (weight (snd a) <= List.length (serialize gap (indent ++ gap) (snd a)))%nat;
          [|lia].
        apply IH.
        - pose proof (list_sum_member (fun y => S (weight (snd y))) a (kv :: l) Ha) as Hm.
          cbn beta in Hm. lia.
        - rewrite Forall_forall in Hp. apply Hp, Ha. }
      specialize (B Hall). lia.
Qed.

(** [JSON.parse(JSON.stringify(v, null, space))] is [v] for a plain value,
    whatever the gap. *)
Lemma JSON_parse_serialize gap v :
  blank gap -> plain v -> JSON_parse (serialize gap [] v) = Some v.
Proof.
  intros Hg Hp. unfold JSON_parse.
  destruct (parse_serialize gap (S (List.length (serialize gap [] v))) Hg) as [H _].
  rewrite <- (app_nil_r (serialize gap [] v)) at 2.
  rewrite (H v [] []); [reflexivity| |exact Hp|constructor|exact I].
  pose proof (weight_le_length gap (weight v) v [] (le_n _) Hp). lia.
Qed.

(** *** Exported documents are plain *)

Lemma plain_of_nullable o : finite_nullable o -> plain (of_nullable o).
Proof. destruct o; intros H; [split; [reflexivity|exact H]|exact I]. Qed.

Lemma plain_of_LogEntry e :
  finite_double (LogEntry.timestamp e) -> plain (of_LogEntry e).
Proof.
  intros H. unfold of_LogEntry. apply plain_Obj. split.
  - cbn [map fst]. repeat (constructor; [cbn; intuition discriminate|]). constructor.
  - repeat (constructor;
            [cbn [snd plain]; first [exact I|split; [reflexivity|exact H]]|]).
    constructor.
Qed.

Lemma plain_of_Tracker x : finite_numbers x -> plain (of_Tracker x).
Proof.
  intros (Ht & Hc & Hcr & Hco & Har & Hl).
  unfold of_Tracker. apply plain_Obj. split.
  - cbn [map fst]. repeat (constructor; [cbn; intuition discriminate|]). constructor.
  - do 7 (constructor;
          [cbn [snd]; first [exact I
                            |split; [reflexivity|assumption]
                            |apply plain_of_nullable; assumption]|]).
    constructor; [|constructor]. cbn [snd].
    apply plain_Arr, Forall_forall. intros v Hv. apply in_map_iff in Hv.
    destruct Hv as (e & <- & He). apply plain_of_LogEntry.
    rewrite Forall_forall in Hl. apply Hl, He.
Qed.

Lemma plain_of_active a :
  (forall x, a = Some x -> finite_numbers x) -> plain (of_active a).
Proof.
  destruct a as [x|]; intros H; [apply plain_of_Tracker, H; reflexivity|exact I].
Qed.

Lemma plain_of_history h :
  Forall finite_numbers h -> plain (Arr (map of_Tracker h)).
Proof.
  intros H. apply plain_Arr, Forall_forall. intros v Hv. apply in_map_iff in Hv.
  destruct Hv as (x & <- & Hx). apply plain_of_Tracker.
  rewrite Forall_forall in H. apply H, Hx.
Qed.

Lemma plain_export a h :
  (forall x, a = Some x -> finite_numbers x) ->
  Forall finite_numbers h ->
  plain (Obj [ (lit "version", Num 1 0);
               (lit "activeTracker", of_active a);
               (lit "history", Arr (map of_Tracker h)) ]).
Proof.
  intros Ha Hh. apply plain_Obj. split.
  - cbn [map fst]. repeat (constructor; [cbn; intuition discriminate|]). constructor.
  - constructor; [split; [reflexivity|apply finite_double_exact; lia]|].
    constructor; [apply plain_of_active, Ha|].
    constructor; [|constructor]. apply plain_of_history, Hh.
Qed.

(** The claim C8 as written fails on a tracker whose target is
    [Infinity], which is what [handleCreate] builds from a target text of
    309 digits: [JSON.stringify] writes [null] for a number that is not
    finite, so the tracker that comes back from the exported text has the
    target [null] and is not the one that was exported. *)
Lemma export_import_roundtrip_counterexample :
  exists st1 w1 x text,
    handleCreate long_form sample_world = Some (st1, w1) /\
    activeTracker st1 = of_Tracker x /\
    Tracker.target x = infinity /\
    handleExport st1 = Some text /\
    ~ importFailed (processFile text sample_form) /\
    field (activeTracker (processFile text sample_form)) (lit "target") = Null /\
    activeTracker (processFile text sample_form) <> activeTracker st1.
Proof.
  assert (Hp : parseInt (targetStr long_form) = Some infinity)
    by (vm_compute; reflexivity).
  eexists _, _, _, _.
  split; [apply (handleCreate_ok long_form sample_world infinity Hp); discriminate|].
  split; [reflexivity|]. split; [reflexivity|]. split; [reflexivity|].
  split; [vm_compute; discriminate|].
  split; [vm_compute; reflexivity|].
  vm_compute. discriminate.
Qed.

(** C8, amended.  Exporting an active tracker (or null) and a history of
    trackers whose numbers are all finite, then importing the exported
    text into any state of the application, succeeds and stores values
    equal to the originals. *)
Theorem export_import_roundtrip (a : option Tracker.t) (h : list Tracker.t)
    (st0 st : AppState) :
  (forall x, a = Some x -> finite_numbers x) ->
  Forall finite_numbers h ->
  activeTracker st0 = of_active a ->
  history st0 = Arr (map of_Tracker h) ->
  exists text,
    handleExport st0 = Some text /\
    ~ importFailed (processFile text st) /\
    activeTracker (processFile text st) = of_active a /\
    history (processFile text st) = Arr (map of_Tracker h).
Proof.
  intros Hfa Hfh Ha Hh. unfold handleExport. rewrite Ha, Hh. cbn [JSON_stringify].
  eexists. split; [reflexivity|].
  pose proof (JSON_parse_serialize _ _ (blank_gap_of_space 2) (plain_export a h Hfa Hfh))
    as Hparse.
  assert (V : passesValidation
                (Obj [ (lit "version", Num 1 0);
                       (lit "activeTracker", of_active a);
                       (lit "history", Arr (map of_Tracker h)) ]))
    by (split; [reflexivity|right; reflexivity]).
  rewrite (processFile_success _ st _ Hparse V).
  split; [|split; reflexivity].
  unfold importFailed. cbn. intros E. symmetry in E.
  exact (invalid_file_message_nonempty E).
Qed.

Lemma export_import_roundtrip_witness :
  exists text,
    handleExport
      (setHistory (Arr [of_Tracker (sample_tracker 20 (Some 1700000000050))])
         (sample_active 3 None)) = Some text /\
    ~ importFailed (processFile text sample_form) /\
    activeTracker (processFile text sample_form) = of_Tracker (sample_tracker 3 None) /\
    history (processFile text sample_form)
      = Arr [of_Tracker (sample_tracker 20 (Some 1700000000050))].
Proof.
  apply (export_import_roundtrip (Some (sample_tracker 3 None))
           [sample_tracker 20 (Some 1700000000050)]).
  - intros x E. injection E as <-. finite_sample.
  - finite_sample.
  - reflexivity.
  - reflexivity.
Defined.

(** * Further properties of the handlers *)

(** * The history store *)

Lemma jsstring_eqb_same a : jsstring_eqb a a = true.
Proof. apply jsstring_eqb_eq. reflexivity. Qed.

Lemma Get_id_of_Tracker t : Get (of_Tracker t) (lit "id") = Some (Str (Tracker.id t)).
Proof. reflexivity. Qed.

Lemma filter_out_id_typed id h :
  filter_out_id id (map of_Tracker h) =
  Some (map of_Tracker
          (filter (fun t => negb (jsstring_eqb (Tracker.id t) id)) h)).
Proof.
  induction h as [|t h IH]; [reflexivity|].
  cbn [map filter_out_id filter]. rewrite Get_id_of_Tracker, IH.
  cbn [option_bind strict_equal_string].
  destruct (jsstring_eqb (Tracker.id t) id); reflexivity.
Qed.

Lemma setHistory_same st v : history st = v -> setHistory v st = st.
Proof. intros <-. destruct st. reflexivity. Qed.

(** X1. [handleDeleteHistory] on a history of trackers stores a history
    that holds, in their order, exactly the trackers whose id differs
    from the one given, and does not touch the active tracker. *)
Theorem delete_history_removes_id id st h :
  history st = Arr (map of_Tracker h) ->
  exists st' h',
    handleDeleteHistory id st = Some st' /\
    history st' = Arr (map of_Tracker h') /\
    activeTracker st' = activeTracker st /\
    h' = filter (fun t => negb (jsstring_eqb (Tracker.id t) id)) h /\
    (forall t, In t h' <-> In t h /\ Tracker.id t <> id).
Proof.
  intros Hh. eexists _, _. split; [|split; [|split; [|split; [reflexivity|]]]].
  - unfold handleDeleteHistory. rewrite Hh, filter_out_id_typed. reflexivity.
  - reflexivity.
  - reflexivity.
  - intros t. rewrite filter_In. apply and_iff_compat_l.
    rewrite negb_true_iff. split.
    + intros E Heq. apply jsstring_eqb_eq in Heq. congruence.
    + intros Hne. destruct (jsstring_eqb (Tracker.id t) id) eqn:E; [|reflexivity].
      apply jsstring_eqb_eq in E. contradiction.
Qed.

Lemma filter_all_kept {A} (f : A -> bool) l :
  (forall x, In x l -> f x = true) -> filter f l = l.
Proof.
  induction l as [|x l IH]; intros H; [reflexivity|].
  cbn [filter]. rewrite (H x (or_introl eq_refl)). f_equal.
  apply IH. intros y Hy. apply H. right. exact Hy.
Qed.

Lemma id_differs t id : Tracker.id t <> id -> negb (jsstring_eqb (Tracker.id t) id) = true.
Proof.
  intros Hne. destruct (jsstring_eqb (Tracker.id t) id) eqn:E; [|reflexivity].
  apply jsstring_eqb_eq in E. contradiction.
Qed.

(** X2. Deleting an id that no archived tracker has returns the state as
    it was, and deleting the same id a second time changes nothing
    more. *)
Theorem delete_history_absent_and_twice id st h :
  history st = Arr (map of_Tracker h) ->
  ((forall t, In t h -> Tracker.id t <> id) ->
   handleDeleteHistory id st = Some st) /\
  (exists st',
     handleDeleteHistory id st = Some st' /\
     handleDeleteHistory id st' = Some st').
Proof.
  intros Hh. split.
  - intros Habs. unfold handleDeleteHistory. rewrite Hh, filter_out_id_typed.
    cbn [option_bind]. rewrite filter_all_kept.
    + rewrite (setHistory_same st _ Hh). reflexivity.
    + intros t Ht. apply id_differs, Habs, Ht.
  - eexists. split.
    + unfold handleDeleteHistory. rewrite Hh, filter_out_id_typed. reflexivity.
    + unfold handleDeleteHistory. cbn [history setHistory].
      rewrite filter_out_id_typed. cbn [option_bind].
      rewrite filter_all_kept; [reflexivity|].
      intros t Ht. apply filter_In in Ht. exact (proj2 Ht).
Qed.

(** X3. Archiving the active tracker and then deleting its id from the
    history leaves the active slot empty and the history as it was before
    the archive, when no older entry has that id. *)
Theorem archive_then_delete st w a h :
  activeTracker st = of_Tracker a ->
  history st = Arr (map of_Tracker h) ->
  (forall t, In t h -> Tracker.id t <> Tracker.id a) ->
  exists st1 w1 st2,
    handleArchive st w = Some (st1, w1) /\
    history st1 <> history st /\
    handleDeleteHistory (Tracker.id a) st1 = Some st2 /\
    activeTracker st2 = Null /\
    history st2 = history st.
Proof.
  intros Ha Hh Hfresh.
  rewrite (handleArchive_run st w a _ Ha Hh). eexists _, _, _.
  split; [reflexivity|].
  split.
  { cbn [history setHistory setActiveTracker]. rewrite Hh. intros E.
    injection E as E. apply (f_equal (@List.length value)) in E.
    cbn [List.length] in E. lia. }
  unfold handleDeleteHistory. cbn [history setHistory setActiveTracker].
  change (of_Tracker ?x :: map of_Tracker h) with (map of_Tracker (x :: h)).
  rewrite filter_out_id_typed. cbn [option_bind filter Tracker.id].
  rewrite jsstring_eqb_same. cbn [negb].
  rewrite filter_all_kept by (intros t Ht; apply id_differs, Hfresh, Ht).
  split; [reflexivity|]. split; [reflexivity|].
  cbn [history setHistory setActiveTracker]. symmetry. exact Hh.
Qed.

Lemma count_action_app a l l' :
  count_action a (l ++ l') = (count_action a l + count_action a l')%nat.
Proof. unfold count_action. rewrite map_app. apply count_occ_app. Qed.

(** One operation only appends to the log of the followed tracker and
    leaves its identity alone. *)
Lemma perform_appends o st w h x :
  tracked h st x ->
  exists st' w' x' extra,
    perform o st w = Some (st', w') /\
    tracked h st' x' /\
    Tracker.logs x' = Tracker.logs x ++ extra /\
    Tracker.id x' = Tracker.id x /\
    Tracker.label x' = Tracker.label x /\
    Tracker.target x' = Tracker.target x /\
    Tracker.createdAt x' = Tracker.createdAt x.
Proof.
  intros [[Ha Hh]|[Ha Hh]].
  2:{ exists st, w, x, []. rewrite (handlers_skip_empty_slot o st w Ha), app_nil_r.
      split; [reflexivity|]. split; [right; split; assumption|]. repeat split. }
  destruct o; cbn [perform].
  - destruct (Z.lt_ge_cases (Tracker.current x) (Tracker.target x)) as [Hlt|Hge].
    + rewrite (handleIncrement_rounded st w x Ha Hlt). cbv zeta.
      destruct (Tracker.target x <=? Number_add (Tracker.current x) 1).
      * eexists _, _, _, _.
        split; [reflexivity|]. split; [left; split; [reflexivity|exact Hh]|].
        repeat split.
      * eexists _, _, _, _.
        split; [reflexivity|]. split; [left; split; [reflexivity|exact Hh]|].
        repeat split.
    + exists st, w, x, []. rewrite (handleIncrement_full st w x Ha Hge), app_nil_r.
      split; [reflexivity|]. split; [left; split; assumption|]. repeat split.
  - destruct (Z.lt_ge_cases 0 (Tracker.current x)) as [Hpos|Hz].
    + eexists _, _, _, _. rewrite (handleDecrement_rounded st w x Ha Hpos).
      split; [reflexivity|]. split; [left; split; [reflexivity|exact Hh]|].
      repeat split.
    + exists st, w, x, []. rewrite (handleDecrement_zero st w x Ha Hz), app_nil_r.
      split; [reflexivity|]. split; [left; split; assumption|]. repeat split.
  - eexists _, _, _, _. rewrite (handleArchive_run st w x h Ha Hh).
    split; [reflexivity|]. split; [right; split; reflexivity|]. repeat split.
Qed.

(** X4. Over any sequence of increment, decrement and archive operations
    the log of the followed tracker only grows at its end, and its id,
    label, target and creation instant stay the same. *)
Theorem log_is_append_only ops : forall st w h x,
  tracked h st x ->
  exists st' w' x' extra,
    run ops st w = Some (st', w') /\
    tracked h st' x' /\
    Tracker.logs x' = Tracker.logs x ++ extra /\
    Tracker.id x' = Tracker.id x /\
    Tracker.label x' = Tracker.label x /\
    Tracker.target x' = Tracker.target x /\
    Tracker.createdAt x' = Tracker.createdAt x.
Proof.
  induction ops as [|o ops IH]; intros st w h x Ht.
  - exists st, w, x, []. rewrite app_nil_r. split; [reflexivity|].
    split; [exact Ht|]. repeat split.
  - destruct (perform_appends o st w h x Ht)
      as (st1 & w1 & x1 & e1 & Hrun & Ht1 & Hl1 & Hi1 & Hb1 & Hg1 & Hc1).
    destruct (IH st1 w1 h x1 Ht1)
      as (st2 & w2 & x2 & e2 & Hrun2 & Ht2 & Hl2 & Hi2 & Hb2 & Hg2 & Hc2).
    exists st2, w2, x2, (e1 ++ e2). cbn [run]. unfold bind. rewrite Hrun.
    split; [exact Hrun2|]. split; [exact Ht2|].
    split; [rewrite Hl2, Hl1, app_assoc; reflexivity|].
    repeat split; congruence.
Qed.

Ltac count_entries :=
  rewrite ?count_action_app; cbn [count_action map LogEntry.action entry_at count_occ
    Action_eq_dec Action_rec Action_rect sumbool_rec sumbool_rect].

(** One operation keeps the ledger and the archival record, and moves
    the counter up by one at most. *)
Lemma perform_ledger o st w h x :
  live h st x \/ shelved h st x ->
  ledger x ->
  0 <= Tracker.current x < 2 ^ 53 ->
  exists st' w' x',
    perform o st w = Some (st', w') /\
    (live h st' x' \/ shelved h st' x') /\
    ledger x' /\
    0 <= Tracker.current x' <= Tracker.current x + 1.
Proof.
  intros [(Ha & Hh & Har & Hn)|(Ha & Hh & Har & Hn)] (Hc & Hcr & e0 & r0 & Hl0 & He0) Hb.
  2:{ exists st, w, x. rewrite (handlers_skip_empty_slot o st w Ha).
      split; [reflexivity|]. split; [right; repeat split; assumption|].
      split; [|lia].
      split; [exact Hc|]. split; [exact Hcr|]. exists e0, r0. split; assumption. }
  unfold live, shelved, ledger.
  destruct o; cbn [perform].
  - destruct (Z.lt_ge_cases (Tracker.current x) (Tracker.target x)) as [Hlt|Hge].
    + assert (Hs : - 2 ^ 53 <= Tracker.current x < 2 ^ 53) by lia.
      destruct (Z.eq_dec (Tracker.current x + 1) (Tracker.target x)) as [Hreach|Hne].
      * eexists _, _, _. rewrite (handleIncrement_reach st w x Ha Hs Hreach).
        split; [reflexivity|].
        split; [left; split; [reflexivity|]; split; [exact Hh|]; split; [exact Har|]|].
        { tracker_fields. count_entries. lia. }
        split; [|tracker_fields; lia].
        split; [tracker_fields; count_entries; lia|].
        split; [tracker_fields; count_entries; lia|]. tracker_fields. rewrite Hl0.
        eexists _, _. split; [reflexivity|exact He0].
      * assert (Hbelow : Tracker.current x + 1 < Tracker.target x) by lia.
        eexists _, _, _. rewrite (handleIncrement_below st w x Ha Hs Hbelow).
        split; [reflexivity|].
        split; [left; split; [reflexivity|]; split; [exact Hh|]; split; [exact Har|]|].
        { tracker_fields. count_entries. lia. }
        split; [|tracker_fields; lia].
        split; [tracker_fields; count_entries; lia|].
        split; [tracker_fields; count_entries; lia|]. tracker_fields. rewrite Hl0.
        eexists _, _. split; [reflexivity|exact He0].
    + exists st, w, x. rewrite (handleIncrement_full st w x Ha Hge).
      split; [reflexivity|]. split; [left; repeat split; assumption|].
      split; [|lia].
      split; [exact Hc|]. split; [exact Hcr|]. exists e0, r0. split; assumption.
  - destruct (Z.lt_ge_cases 0 (Tracker.current x)) as [Hpos|Hz].
    + eexists _, _, _. rewrite (handleDecrement_run st w x Ha) by lia.
      split; [reflexivity|].
      split; [left; split; [reflexivity|]; split; [exact Hh|]; split; [exact Har|]|].
      { tracker_fields. count_entries. lia. }
      split; [|tracker_fields; lia].
      split; [tracker_fields; count_entries; lia|].
      split; [tracker_fields; count_entries; lia|]. tracker_fields. rewrite Hl0.
      eexists _, _. split; [reflexivity|exact He0].
    + exists st, w, x. rewrite (handleDecrement_zero st w x Ha Hz).
      split; [reflexivity|]. split; [left; repeat split; assumption|].
      split; [|lia].
      split; [exact Hc|]. split; [exact Hcr|]. exists e0, r0. split; assumption.
  - eexists _, _, _. rewrite (handleArchive_run st w x h Ha Hh).
    split; [reflexivity|].
    split; [right; split; [reflexivity|]; split; [reflexivity|]; split; [discriminate|]|].
    { tracker_fields. count_entries. lia. }
    split; [|tracker_fields; lia].
    split; [tracker_fields; count_entries; lia|].
    split; [tracker_fields; count_entries; lia|]. tracker_fields. rewrite Hl0.
    eexists _, _. split; [reflexivity|exact He0].
Qed.

Lemma run_ledger ops : forall st w h x,
  live h st x \/ shelved h st x ->
  ledger x ->
  0 <= Tracker.current x ->
  Tracker.current x + Z.of_nat (List.length ops) <= 2 ^ 53 ->
  exists st' w' x',
    run ops st w = Some (st', w') /\
    (live h st' x' \/ shelved h st' x') /\
    ledger x'.
Proof.
  induction ops as [|o ops IH]; intros st w h x Hs Hl H0 Hb.
  - exists st, w, x. split; [reflexivity|]. split; assumption.
  - cbn [List.length] in Hb.
    destruct (perform_ledger o st w h x Hs Hl ltac:(lia))
      as (st1 & w1 & x1 & Hrun & Hs1 & Hl1 & Hb1).
    cbn [run]. unfold bind. rewrite Hrun. apply (IH st1 w1 h x1 Hs1 Hl1); lia.
Qed.

(** X5. After a successful [handleCreate] and any sequence of at most
    [2^53] increment, decrement and archive operations, the log starts
    with its single [created] entry, [current] is the number of
    [increment] entries minus the number of [decrement] entries, and the
    tracker is either active with no [archivedAt] and no [archived]
    entry, or archived with an [archivedAt] and exactly one [archived]
    entry. *)
Theorem log_accounts_for_counter st w tg h ops :
  parseInt (targetStr st) = Some tg ->
  1 <= tg ->
  Z.of_nat (List.length ops) <= 2 ^ 53 ->
  history st = Arr h ->
  exists st' w' x,
    (st1 <- handleCreate st ;; run ops st1) w = Some (st', w') /\
    (live h st' x \/ shelved h st' x) /\
    ledger x.
Proof.
  intros Hp Hge Hlen Hh. unfold bind. rewrite (handleCreate_ok st w tg Hp Hge).
  eapply run_ledger.
  - left. split; [reflexivity|]. split; [exact Hh|]. split; reflexivity.
  - split; [reflexivity|]. split; [reflexivity|].
    eexists _, _. split; [reflexivity|reflexivity].
  - tracker_fields. lia.
  - tracker_fields. lia.
Qed.

Lemma run_empty_slot ops : forall st w,
  activeTracker st = Null -> run ops st w = Some (st, w).
Proof.
  induction ops as [|o ops IH]; intros st w Ha; [reflexivity|].
  cbn [run]. unfold bind. rewrite (handlers_skip_empty_slot o st w Ha).
  apply IH, Ha.
Qed.

(** X6. Once [handleArchive] has run, no sequence of increment, decrement
    and archive operations changes the state or reads the clock. *)
Theorem archived_is_final st w a h ops :
  activeTracker st = of_Tracker a ->
  history st = Arr h ->
  exists st1 w1,
    handleArchive st w = Some (st1, w1) /\
    run ops st1 w1 = Some (st1, w1).
Proof.
  intros Ha Hh. rewrite (handleArchive_run st w a h Ha Hh).
  eexists _, _. split; [reflexivity|]. apply run_empty_slot. reflexivity.
Qed.

(** X7. Calling [handleCreate] twice in a row has the effect of calling
    it once: a successful create empties both form fields, and the empty
    target field makes the second call return the state as it is. *)
Theorem create_twice st w :
  exists st1 w1,
    handleCreate st w = Some (st1, w1) /\
    handleCreate st1 w1 = Some (st1, w1) /\
    (st1 <> st -> label st1 = [] /\ targetStr st1 = []).
Proof.
  destruct (parseInt (targetStr st)) as [tg|] eqn:Hp.
  - destruct (Z.lt_ge_cases tg 1) as [Hlt|Hge].
    + assert (R : handleCreate st w = Some (st, w)).
      { apply handleCreate_rejects. intros tg' E. rewrite Hp in E.
        injection E as <-. exact Hlt. }
      exists st, w. split; [exact R|]. split; [exact R|]. intros N. destruct N. reflexivity.
    + eexists _, _. rewrite (handleCreate_ok st w tg Hp Hge).
      split; [reflexivity|]. split; [|intros _; split; reflexivity].
      apply handleCreate_rejects. intros tg' E. discriminate E.
  - assert (R : handleCreate st w = Some (st, w)).
    { apply handleCreate_rejects. intros tg' E. rewrite Hp in E. discriminate E. }
    exists st, w. split; [exact R|]. split; [exact R|]. intros N. destruct N. reflexivity.
Qed.

(** X10. On a tracker below its target and below [2^53], not completed,
    an increment followed by a decrement restores [current] and leaves
    [completedAt] null, also when the increment had reached the target;
    the log gains one [increment] and one [decrement] entry. *)
Theorem increment_then_decrement st w a :
  activeTracker st = of_Tracker a ->
  0 <= Tracker.current a < Tracker.target a ->
  Tracker.current a < 2 ^ 53 ->
  Tracker.completedAt a = None ->
  exists st2 w2 x extra,
    (st1 <- handleIncrement st ;; handleDecrement st1) w = Some (st2, w2) /\
    activeTracker st2 = of_Tracker x /\
    Tracker.current x = Tracker.current a /\
    Tracker.target x = Tracker.target a /\
    Tracker.completedAt x = None /\
    Tracker.logs x = Tracker.logs a ++ extra /\
    count_action increment extra = 1%nat /\
    count_action decrement extra = 1%nat.
Proof.
  intros Ha [H0 Hlt] Hs Hd. unfold bind.
  destruct (Z.eq_dec (Tracker.current a + 1) (Tracker.target a)) as [Hr|Hr].
  - rewrite (handleIncrement_reach st w a Ha ltac:(lia) Hr).
    rewrite (handleDecrement_run _ _ _ (activeTracker_set _ st))
      by (tracker_fields; lia).
    eexists _, _, _, _. split; [reflexivity|]. split; [reflexivity|].
    tracker_fields. split; [lia|]. split; [reflexivity|].
    split.
    { destruct (Z.leb_spec (Tracker.target a) (Tracker.current a + 1)); [reflexivity|lia]. }
    split; [rewrite <- app_assoc; reflexivity|]. split; reflexivity.
  - assert (Hb : Tracker.current a + 1 < Tracker.target a) by lia.
    rewrite (handleIncrement_below st w a Ha ltac:(lia) Hb).
    rewrite (handleDecrement_run _ _ _ (activeTracker_set _ st))
      by (tracker_fields; lia).
    eexists _, _, _, _. split; [reflexivity|]. split; [reflexivity|].
    tracker_fields. split; [lia|]. split; [reflexivity|].
    split.
    { destruct (Z.leb_spec (Tracker.target a) (Tracker.current a + 1)); [lia|exact Hd]. }
    split; [rewrite <- app_assoc; reflexivity|]. split; reflexivity.
Qed.

Lemma times_add n h : forall m st w,
  times (n + m) h st w =
  match times n h st w with
  | Some (st', w') => times m h st' w'
  | None => None
  end.
Proof.
  induction n as [|n IH]; intros m st w; [reflexivity|].
  cbn [Nat.add times]. unfold bind. destruct (h st w) as [[st1 w1]|]; [apply IH|reflexivity].
Qed.

Lemma increments_full m : forall st w a,
  activeTracker st = of_Tracker a ->
  Tracker.target a <= Tracker.current a ->
  times m handleIncrement st w = Some (st, w).
Proof.
  induction m as [|m IH]; intros st w a Ha Hge; [reflexivity|].
  cbn [times]. unfold bind. rewrite (handleIncrement_full st w a Ha Hge).
  apply (IH st w a Ha Hge).
Qed.

(** X11. With a counter from [-2^53] on and a target of at most [2^53],
    incrementing at least as many times as the tracker is short of its
    target stops at the target: [current = target], [completedAt] is
    set, and the log gains one [increment] entry per missing step and a
    single [completed] entry, however many further calls are made. *)
Theorem increments_saturate k st w a :
  activeTracker st = of_Tracker a ->
  Tracker.current a < Tracker.target a ->
  - 2 ^ 53 <= Tracker.current a ->
  Tracker.target a <= 2 ^ 53 ->
  Tracker.target a - Tracker.current a <= Z.of_nat k ->
  exists st' w' x,
    times k handleIncrement st w = Some (st', w') /\
    activeTracker st' = of_Tracker x /\
    Tracker.target x = Tracker.target a /\
    Tracker.current x = Tracker.target a /\
    Tracker.completedAt x <> None /\
    map LogEntry.action (Tracker.logs x) =
      map LogEntry.action (Tracker.logs a)
      ++ repeat increment (Z.to_nat (Tracker.target a - Tracker.current a))
      ++ [completed].
Proof.
  intros Ha Hlt Hlow Htop Hk.
  set (n := Z.to_nat (Tracker.target a - Tracker.current a)).
  assert (Hn : Z.of_nat n = Tracker.target a - Tracker.current a) by (unfold n; lia).
  replace k with (n + (k - n))%nat by lia. rewrite times_add.
  destruct (increments_run n st w a Ha Hlow ltac:(lia) ltac:(lia))
    as (st1 & w1 & x & Hrun & Hx & _ & Ht & Hc & Hl).
  rewrite Hrun.
  destruct (Z.ltb_spec 0 (Z.of_nat n)); [|lia].
  destruct (Z.eqb_spec (Tracker.current a + Z.of_nat n) (Tracker.target a)); [|lia].
  cbn [andb] in Hl. destruct Hl as [Hd Hl].
  exists st1, w1, x. split; [apply (increments_full _ st1 w1 x Hx); lia|].
  split; [exact Hx|]. split; [exact Ht|]. split; [lia|]. split; [exact Hd|exact Hl].
Qed.

Lemma decrements_run k : forall st w a,
  activeTracker st = of_Tracker a ->
  0 <= Tracker.current a <= 2 ^ 53 ->
  exists st' w' x,
    times k handleDecrement st w = Some (st', w') /\
    activeTracker st' = of_Tracker x /\
    history st' = history st /\
    Tracker.target x = Tracker.target a /\
    Tracker.current x = Z.max 0 (Tracker.current a - Z.of_nat k) /\
    map LogEntry.action (Tracker.logs x) =
      map LogEntry.action (Tracker.logs a)
      ++ repeat decrement (Z.to_nat (Z.min (Z.of_nat k) (Tracker.current a))).
Proof.
  induction k as [|k IH]; intros st w a Ha H0.
  - exists st, w, a. cbn [times ret]. split; [reflexivity|]. split; [exact Ha|].
    split; [reflexivity|]. split; [reflexivity|]. split; [lia|].
    replace (Z.to_nat (Z.min (Z.of_nat 0) (Tracker.current a))) with 0%nat by lia.
    cbn [repeat]. rewrite app_nil_r. reflexivity.
  - cbn [times]. unfold bind.
    destruct (Z.lt_ge_cases 0 (Tracker.current a)) as [Hpos|Hz].
    + rewrite (handleDecrement_run st w a Ha) by lia.
      match goal with |- context [times k handleDecrement ?s ?w1] =>
        destruct (IH s w1 _ (activeTracker_set _ st))
          as (st' & w' & x & Hrun & Hx & Hh & Ht & Hc & Hl)
      end.
      { tracker_fields. lia. }
      tracker_fields. cbn [history setActiveTracker] in Hh.
      exists st', w', x. split; [exact Hrun|]. split; [exact Hx|].
      split; [exact Hh|]. split; [exact Ht|]. split; [lia|].
      rewrite Hl, map_app, <- app_assoc. cbn [map LogEntry.action entry_at app].
      replace (Z.to_nat (Z.min (Z.of_nat (S k)) (Tracker.current a)))
        with (S (Z.to_nat (Z.min (Z.of_nat k) (Tracker.current a - 1)))) by lia.
      reflexivity.
    + rewrite (handleDecrement_zero st w a Ha Hz).
      destruct (IH st w a Ha H0) as (st' & w' & x & Hrun & Hx & Hh & Ht & Hc & Hl).
      exists st', w', x. split; [exact Hrun|]. split; [exact Hx|].
      split; [exact Hh|]. split; [exact Ht|]. split; [lia|].
      rewrite Hl.
      replace (Z.to_nat (Z.min (Z.of_nat (S k)) (Tracker.current a)))
        with (Z.to_nat (Z.min (Z.of_nat k) (Tracker.current a))) by lia.
      reflexivity.
Qed.

(** X12. [k] decrements of a tracker with [0 <= current <= 2^53] leave
    [current = max(0, current - k)] and append [min(k, current)]
    [decrement] entries: the counter never goes below zero. *)
Theorem decrements_saturate k st w a :
  activeTracker st = of_Tracker a ->
  0 <= Tracker.current a <= 2 ^ 53 ->
  exists st' w' x,
    times k handleDecrement st w = Some (st', w') /\
    activeTracker st' = of_Tracker x /\
    Tracker.target x = Tracker.target a /\
    Tracker.current x = Z.max 0 (Tracker.current a - Z.of_nat k) /\
    map LogEntry.action (Tracker.logs x) =
      map LogEntry.action (Tracker.logs a)
      ++ repeat decrement (Z.to_nat (Z.min (Z.of_nat k) (Tracker.current a))).
Proof.
  intros Ha H0.
  destruct (decrements_run k st w a Ha H0) as (st' & w' & x & Hrun & Hx & _ & Ht & Hc & Hl).
  exists st', w', x. repeat (split; [assumption|]). assumption.
Qed.

Lemma run_increments n : forall st w,
  run (repeat op_increment n) st w = times n handleIncrement st w.
Proof.
  induction n as [|n IH]; intros st w; [reflexivity|].
  cbn [repeat run times perform]. unfold bind.
  destruct (handleIncrement st w) as [[st1 w1]|]; [apply IH|reflexivity].
Qed.

Lemma count_occ_repeat_same (a : Action) n :
  count_occ Action_eq_dec (repeat a n) a = n.
Proof.
  induction n as [|n IH]; [reflexivity|].
  cbn [repeat]. rewrite count_occ_cons_eq by reflexivity. rewrite IH. reflexivity.
Qed.

Lemma count_occ_repeat_other (a b : Action) n :
  a <> b -> count_occ Action_eq_dec (repeat a n) b = 0%nat.
Proof.
  intros H. induction n as [|n IH]; [reflexivity|].
  cbn [repeat]. rewrite count_occ_cons_neq by exact H. exact IH.
Qed.

(** Why the ledger is stated for runs of at most [2^53] operations: one
    increment more, on a tracker created with the target [2^53 + 2],
    leaves the counter at [2^53] while the log holds [2^53 + 1]
    [increment] entries and no [decrement] entry. *)
Lemma ledger_fails_beyond_exact_range :
  exists st' w' x,
    (st1 <- handleCreate far_form ;;
     run (repeat op_increment (Z.to_nat (2 ^ 53 + 1))) st1) sample_world
      = Some (st', w') /\
    activeTracker st' = of_Tracker x /\
    Tracker.current x = 2 ^ 53 /\
    Z.of_nat (count_action increment (Tracker.logs x)) = 2 ^ 53 + 1 /\
    count_action decrement (Tracker.logs x) = 0%nat /\
    ~ ledger x.
Proof.
  remember (Z.to_nat (2 ^ 53)) as n eqn:Hn.
  assert (Hzn : Z.of_nat n = 2 ^ 53) by (subst n; lia).
  replace (Z.to_nat (2 ^ 53 + 1)) with (n + 1)%nat by lia.
  clear Hn. unfold bind.
  rewrite (handleCreate_ok far_form sample_world 9007199254740994 eq_refl ltac:(lia)).
  rewrite run_increments, times_add.
  match goal with |- context [times n handleIncrement ?s ?w1] =>
    destruct (increments_run n s w1 _ eq_refl)
      as (st1 & w1' & x1 & Hrun & Hx1 & _ & Ht1 & Hc1 & Hl1)
  end.
  { tracker_fields. lia. }
  { tracker_fields. lia. }
  { tracker_fields. lia. }
  tracker_fields.
  destruct (Z.eqb_spec (0 + Z.of_nat n) 9007199254740994) as [E|_]; [lia|].
  rewrite andb_false_r in Hl1. destruct Hl1 as [Hd1 Hl1].
  rewrite Hrun. cbn [times]. unfold bind.
  rewrite (handleIncrement_stuck st1 w1' x1 Hx1) by lia.
  eexists _, _, _. split; [reflexivity|]. split; [reflexivity|].
  tracker_fields.
  assert (Hinc : count_action increment (Tracker.logs x1) = n).
  { unfold count_action. rewrite Hl1. cbn [map LogEntry.action entry_at app].
    rewrite count_occ_cons_neq by discriminate. apply count_occ_repeat_same. }
  assert (Hdec : count_action decrement (Tracker.logs x1) = 0%nat).
  { unfold count_action. rewrite Hl1. cbn [map LogEntry.action entry_at app].
    rewrite count_occ_cons_neq by discriminate.
    apply count_occ_repeat_other. discriminate. }
  split; [lia|].
  split; [count_entries; lia|].
  split; [count_entries; lia|].
  intros [Hledger _]. tracker_fields. revert Hledger. count_entries. lia.
Qed.

(** X18. A target above [2^53] is never reached: the counter stops at
    [2^53], so after a create with such a target (a text of more than 308
    digits, read as [Infinity], is one) and any sequence of increment,
    decrement and archive operations, the tracker is not completed. *)
Theorem target_beyond_exact_range_is_unreachable st w tg h ops :
  parseInt (targetStr st) = Some tg ->
  2 ^ 53 < tg ->
  history st = Arr h ->
  exists st' w' x,
    (st1 <- handleCreate st ;; run ops st1) w = Some (st', w') /\
    tracked h st' x /\
    Tracker.target x = tg /\
    0 <= Tracker.current x <= 2 ^ 53 /\
    Tracker.current x < Tracker.target x /\
    Tracker.completedAt x = None.
Proof.
  intros Hp Hbig Hh.
  destruct (reachable_invariants st w tg h ops Hp ltac:(lia) Hh)
    as (st' & w' & x & Hrun & Ht & [Hr _] & Hc & He & Hg).
  unfold completion_consistent, counter_exact in *.
  exists st', w', x. split; [exact Hrun|]. split; [exact Ht|]. split; [exact Hg|].
  split; [lia|]. split; [lia|].
  destruct (Tracker.completedAt x) as [d|] eqn:E; [|reflexivity].
  assert (Tracker.current x = Tracker.target x) by (apply Hc; discriminate). lia.
Qed.

(** * The create form *)

Lemma trimStart_split s :
  exists ws, s = ws ++ trimStart s /\ Forall (fun c => isWhiteSpace c = true) ws.
Proof.
  induction s as [|c s (ws & Hs & Hws)]; [exists []; split; [reflexivity|constructor]|].
  cbn [trimStart]. destruct (isWhiteSpace c) eqn:E.
  - exists (c :: ws). split; [cbn [app]; f_equal; exact Hs|constructor; assumption].
  - exists []. split; [reflexivity|constructor].
Qed.

Lemma trimStart_head s c r : trimStart s = c :: r -> isWhiteSpace c = false.
Proof.
  induction s as [|d s IH]; [discriminate|].
  cbn [trimStart]. destruct (isWhiteSpace d) eqn:E; [exact IH|].
  intros H. injection H as <- _. exact E.
Qed.

Lemma trimStart_fixed l :
  (forall c r, l = c :: r -> isWhiteSpace c = false) -> trimStart l = l.
Proof.
  destruct l as [|c r]; [reflexivity|]. intros H. cbn [trimStart].
  rewrite (H c r eq_refl). reflexivity.
Qed.

(** What [trim] returns starts and ends with a code unit that is not
    white space. *)
Lemma trim_ends s :
  (forall c r, trim s = c :: r -> isWhiteSpace c = false) /\
  (forall r c, trim s = r ++ [c] -> isWhiteSpace c = false).
Proof.
  unfold trim, trimEnd.
  destruct (trimStart_split (rev (trimStart s))) as (ws & Hs & _).
  split.
  - intros c r H. apply (f_equal (@rev N)) in Hs. rewrite rev_involutive, rev_app_distr, H in Hs.
    cbn [app] in Hs. apply (trimStart_head s c _ Hs).
  - intros r c H. apply (f_equal (@rev N)) in H. rewrite rev_involutive, rev_app_distr in H.
    cbn [rev app] in H. apply (trimStart_head _ c _ H).
Qed.

Lemma trim_fixed l :
  (forall c r, l = c :: r -> isWhiteSpace c = false) ->
  (forall r c, l = r ++ [c] -> isWhiteSpace c = false) ->
  trim l = l.
Proof.
  intros Hh Hl. unfold trim, trimEnd. rewrite (trimStart_fixed l Hh).
  rewrite trimStart_fixed; [apply rev_involutive|].
  intros c r H. apply (Hl (rev r) c). apply (f_equal (@rev N)) in H.
  rewrite rev_involutive in H. exact H.
Qed.

(** X8. The label of a created tracker is never empty and neither starts
    nor ends with white space: it is its own [trim]. *)
Theorem created_label_is_trimmed st w tg :
  parseInt (targetStr st) = Some tg ->
  1 <= tg ->
  exists st' w' x,
    handleCreate st w = Some (st', w') /\
    activeTracker st' = of_Tracker x /\
    Tracker.label x <> [] /\
    trim (Tracker.label x) = Tracker.label x /\
    (forall c r, Tracker.label x = c :: r -> isWhiteSpace c = false) /\
    (forall r c, Tracker.label x = r ++ [c] -> isWhiteSpace c = false).
Proof.
  intros Hp Hge. eexists _, _, _. rewrite (handleCreate_ok st w tg Hp Hge).
  split; [reflexivity|]. split; [reflexivity|]. cbn [Tracker.label].
  destruct (trim_ends (label st)) as [Hh Hl].
  destruct (trim (label st)) as [|c r] eqn:E.
  - split; [discriminate|]. split; [reflexivity|]. split.
    + intros c r H. injection H as <- _. reflexivity.
    + intros r c H.
      assert (L : last (lit "Tracker") 0%N = last (r ++ [c]) 0%N) by (rewrite H; reflexivity).
      rewrite last_last in L. subst c. reflexivity.
  - split; [discriminate|]. split; [apply trim_fixed; assumption|]. split; assumption.
Qed.

Lemma digit_not_space c : is_digit c = true -> isWhiteSpace c = false.
Proof.
  intros H. apply is_digit_range in H. unfold isWhiteSpace.
  repeat match goal with
  | |- context [N.leb ?a ?b] => destruct (N.leb_spec a b); try lia
  | |- context [N.eqb ?a ?b] => destruct (N.eqb_spec a b); try lia
  end; reflexivity.
Qed.

Lemma digit_value_decimal c :
  is_digit c = true -> digit_value 10 c = Some (c - 48)%N.
Proof.
  intros H. unfold digit_value. unfold is_digit in H. rewrite H.
  apply is_digit_range in H.
  destruct (N.ltb_spec (c - 48) 10); [reflexivity|lia].
Qed.

Lemma read_digits_all s : forall a,
  Forall (fun c => is_digit c = true) s ->
  read_digits 10 (s) (Some a) =
  Some (fold_left (fun a c => a * 10 + (c - 48))%N s a).
Proof.
  induction s as [|c s IH]; intros a H; [reflexivity|].
  inversion H as [|? ? Hc Hs]; subst. cbn [read_digits fold_left].
  rewrite (digit_value_decimal c Hc). apply IH, Hs.
Qed.

(** On a text of digits [parseInt] is the decimal value as a double, and
    [NaN] on the empty text. *)
Lemma parseInt_digits s :
  Forall (fun c => is_digit c = true) s ->
  parseInt s = match s with
               | [] => None
               | _ => Some (Number_of (Z.of_N (digits_value s)))
               end.
Proof.
  intros H. destruct s as [|c s]; [reflexivity|].
  inversion H as [|? ? Hc Hs]; subst.
  unfold parseInt. rewrite trimStart_fixed
    by (intros c' r' E; injection E as <- _; apply digit_not_space, Hc).
  assert (R : read_digits 10 (c :: s) None = Some (digits_value (c :: s))).
  { cbn [read_digits]. rewrite (digit_value_decimal c Hc).
    rewrite (read_digits_all s _ Hs). unfold digits_value. cbn [fold_left].
    reflexivity. }
  pose proof (is_digit_range c Hc) as Rc.
  assert (C : (c = 48 \/ c = 49 \/ c = 50 \/ c = 51 \/ c = 52 \/ c = 53 \/ c = 54 \/
               c = 55 \/ c = 56 \/ c = 57)%N) by lia.
  destruct C as [->|C].
  - destruct s as [|x s].
    + reflexivity.
    + inversion Hs as [|? ? Hx _]; subst. apply is_digit_range in Hx.
      cbv zeta iota beta.
      destruct (N.eqb_spec x 120); [lia|]. destruct (N.eqb_spec x 88); [lia|].
      cbn [orb]. rewrite R. reflexivity.
  - repeat (destruct C as [->|C]; [cbv zeta iota beta; rewrite R; reflexivity|]).
    subst c. cbv zeta iota beta. rewrite R. reflexivity.
Qed.

Lemma filter_digits input : Forall (fun c => is_digit c = true) (filter is_digit input).
Proof. apply Forall_forall. intros c Hc. apply filter_In in Hc. exact (proj2 Hc). Qed.

(** X9. The target field keeps only decimal digits of what is typed, and
    with such a field the Start button is disabled exactly when
    [handleCreate] would return the state unchanged. *)
Theorem sanitized_target_gates_create input st w :
  Forall (fun c => is_digit c = true) (targetStr (onTargetChange input st)) /\
  (startDisabled (onTargetChange input st) = true <->
   handleCreate (onTargetChange input st) w = Some (onTargetChange input st, w)).
Proof.
  split; [apply filter_digits|].
  pose proof (parseInt_digits _ (filter_digits input)) as Hp.
  unfold startDisabled. cbn [onTargetChange targetStr setTargetStr] in *.
  remember (onTargetChange input st) as st1 eqn:Hst.
  assert (Ht : targetStr st1 = filter is_digit input) by (subst st1; reflexivity).
  destruct (filter is_digit input) as [|c s] eqn:E.
  - split; [|reflexivity]. intros _. apply handleCreate_rejects.
    intros tg Htg. rewrite Ht, Hp in Htg. discriminate.
  - rewrite Hp. split.
    + intros Hd. apply Z.ltb_lt in Hd. apply handleCreate_rejects.
      intros tg Htg. rewrite Ht, Hp in Htg. injection Htg as <-. exact Hd.
    + intros Hn.
      destruct (Z.ltb_spec (Number_of (Z.of_N (digits_value (c :: s)))) 1) as [|Hge];
        [reflexivity|].
      rewrite <- Ht in Hp at 1.
      rewrite (handleCreate_ok st1 w _ Hp Hge) in Hn.
      injection Hn as Hs _. apply (f_equal targetStr) in Hs.
      cbn [targetStr setTargetStr] in Hs. rewrite Ht in Hs. discriminate.
Qed.

(** * [LogList] *)

Lemma slice_to_firstn {A} (m : Z) (l : list A) :
  0 <= m -> slice_to m l = firstn (Z.to_nat m) l.
Proof.
  intros Hm. unfold slice_to. destruct (Z.ltb_spec m 0); [lia|].
  destruct (Z.le_gt_cases m (Z.of_nat (List.length l))) as [Hle|Hgt].
  - rewrite Z.min_l by exact Hle. reflexivity.
  - rewrite Z.min_r by lia. rewrite Nat2Z.id.
    rewrite firstn_all, firstn_all2; [reflexivity|lia].
Qed.

(** X13. With a non-negative [max] (5 when none is given), [LogList]
    shows every entry when expanded and the first [max] entries when
    collapsed, and it renders its toggle button exactly when the
    collapsed view leaves entries out. *)
Theorem loglist_window {A} (max : option Z) (logs : list A) :
  0 <= max_or_default max ->
  shown true max logs = logs /\
  shown false max logs = firstn (Z.to_nat (max_or_default max)) logs /\
  Z.of_nat (List.length (shown false max logs))
    = Z.min (max_or_default max) (Z.of_nat (List.length logs)) /\
  (hasToggle max logs = true <-> shown false max logs <> logs).
Proof.
  intros Hm. split; [reflexivity|]. unfold shown, hasToggle.
  rewrite (slice_to_firstn _ logs Hm). split; [reflexivity|].
  split; [rewrite length_firstn; lia|].
  rewrite Z.ltb_lt. split.
  - intros Hlt E. apply (f_equal (@List.length A)) in E.
    rewrite length_firstn in E. lia.
  - intros Hne. destruct (Z.lt_ge_cases (max_or_default max) (Z.of_nat (List.length logs)))
      as [Hlt|Hge]; [exact Hlt|].
    destruct Hne. apply firstn_all2. lia.
Qed.

(** X14. Collapsed, as it is when first rendered, the inline activity log
    shows the last five log entries of the tracker, newest first;
    expanded, it shows every entry, newest first; the button that
    switches between the two is rendered exactly when the log has more
    than five entries; and in both states the first line is the entry
    appended last. *)
Theorem activity_log_newest_first x :
  activityLog false x
    = rev (skipn (List.length (Tracker.logs x) - 5) (Tracker.logs x)) /\
  (List.length (activityLog false x) <= 5)%nat /\
  activityLog true x = rev (Tracker.logs x) /\
  (activityLogToggle x = true <-> (5 < List.length (Tracker.logs x))%nat) /\
  (activityLogToggle x = false -> activityLog false x = activityLog true x) /\
  (forall expanded l e,
      Tracker.logs x = l ++ [e] -> exists r, activityLog expanded x = e :: r).
Proof.
  unfold activityLog, activityLogToggle, shown, hasToggle.
  rewrite slice_to_firstn by (cbn; lia).
  change (Z.to_nat (max_or_default None)) with 5%nat.
  change (max_or_default None) with 5. rewrite length_rev.
  split; [rewrite firstn_rev; reflexivity|].
  split; [rewrite length_firstn; lia|].
  split; [reflexivity|].
  split; [rewrite Z.ltb_lt; lia|].
  split.
  - intros H. apply Z.ltb_ge in H. apply firstn_all2. rewrite length_rev. lia.
  - intros [|] l e H; rewrite H, rev_app_distr; cbn [rev app firstn];
      eexists; reflexivity.
Qed.

(** * [usePersistedState] *)





(** * Export and import of any state *)

(** X17. For any state whose active slot is [undefined] or a value that
    JSON carries unchanged, and whose history is such a value other than
    null, with one of the two truthy, importing the exported text
    restores both slots; an [undefined] active slot is left out of the
    text and comes back as [undefined]. *)
Theorem export_import_restores_state st0 st :
  plain (activeTracker st0) \/ activeTracker st0 = Undefined ->
  plain (history st0) ->
  history st0 <> Null ->
  ToBoolean (activeTracker st0) = true \/ ToBoolean (history st0) = true ->
  exists text,
    handleExport st0 = Some text /\
    ~ importFailed (processFile text st) /\
    activeTracker (processFile text st) = activeTracker st0 /\
    history (processFile text st) = history st0.
Proof.
  intros Ha Hh Hn Ht. unfold handleExport. cbn [JSON_stringify].
  eexists. split; [reflexivity|].
  assert (Hc : coalesce (history st0) (Arr []) = history st0).
  { unfold coalesce. destruct (history st0); try reflexivity; [destruct Hh|congruence]. }
  destruct Ha as [Ha|Ha].
  - assert (P : plain (Obj [ (lit "version", Num 1 0);
                             (lit "activeTracker", activeTracker st0);
                             (lit "history", history st0) ])).
    { apply plain_Obj. split.
      - cbn [map fst]. repeat (constructor; [cbn; intuition discriminate|]). constructor.
      - repeat constructor; assumption. }
    pose proof (JSON_parse_serialize _ _ (blank_gap_of_space 2) P) as Hparse.
    rewrite (processFile_success _ st _ Hparse); [|split; [reflexivity|exact Ht]].
    split; [|split; [reflexivity|exact Hc]].
    unfold importFailed. cbn. intros E. symmetry in E.
    exact (invalid_file_message_nonempty E).
  - rewrite Ha in *. destruct Ht as [Ht|Ht]; [discriminate|].
    assert (P : plain (Obj [ (lit "version", Num 1 0); (lit "history", history st0) ])).
    { apply plain_Obj. split.
      - cbn [map fst]. repeat (constructor; [cbn; intuition discriminate|]). constructor.
      - repeat constructor; assumption. }
    pose proof (JSON_parse_serialize _ _ (blank_gap_of_space 2) P) as Hparse.
    change (serialize (gap_of_space 2) []
              (Obj [ (lit "version", Num 1 0);
                     (lit "activeTracker", Undefined);
                     (lit "history", history st0) ]))
      with (serialize (gap_of_space 2) []
              (Obj [ (lit "version", Num 1 0); (lit "history", history st0) ])).
    rewrite (processFile_success _ st _ Hparse); [|split; [reflexivity|right; exact Ht]].
    split; [|split; [reflexivity|exact Hc]].
    unfold importFailed. cbn. intros E. symmetry in E.
    exact (invalid_file_message_nonempty E).
Qed.

(** * Instances of the further properties *)

Lemma target_beyond_exact_range_is_unreachable_witness :
  exists st' w' x,
    (st1 <- handleCreate long_form ;;
     run [op_increment; op_increment; op_decrement; op_increment] st1) sample_world
      = Some (st', w') /\
    tracked [] st' x /\
    Tracker.target x = infinity /\
    0 <= Tracker.current x <= 2 ^ 53 /\
    Tracker.current x < Tracker.target x /\
    Tracker.completedAt x = None.
Proof.
  apply (target_beyond_exact_range_is_unreachable long_form sample_world infinity []).
  - vm_compute. reflexivity.
  - vm_compute. reflexivity.
  - reflexivity.
Defined.

Lemma delete_history_removes_id_witness :
  exists st' h',
    handleDeleteHistory (lit "a1") sample_shelf = Some st' /\
    history st' = Arr (map of_Tracker h') /\
    activeTracker st' = activeTracker sample_shelf /\
    h' = [sample_archived (lit "b2")].
Proof.
  destruct (delete_history_removes_id (lit "a1") sample_shelf sample_history eq_refl)
    as (st' & h' & Hrun & Hh & Ha & Hf & _).
  exists st', h'. split; [exact Hrun|]. split; [exact Hh|]. split; [exact Ha|].
  rewrite Hf. reflexivity.
Defined.

Lemma delete_history_absent_and_twice_witness :
  handleDeleteHistory (lit "zz") sample_shelf = Some sample_shelf /\
  exists st',
    handleDeleteHistory (lit "a1") sample_shelf = Some st' /\
    handleDeleteHistory (lit "a1") st' = Some st'.
Proof.
  split.
  - apply (delete_history_absent_and_twice (lit "zz") sample_shelf sample_history eq_refl).
    intros t [<-|[<-|[<-|[]]]]; discriminate.
  - apply (delete_history_absent_and_twice (lit "a1") sample_shelf sample_history eq_refl).
Defined.

Lemma archive_then_delete_witness :
  exists st1 w1 st2,
    handleArchive sample_shelf sample_world = Some (st1, w1) /\
    history st1 <> history sample_shelf /\
    handleDeleteHistory (Tracker.id (sample_tracker 7 None)) st1 = Some st2 /\
    activeTracker st2 = Null /\
    history st2 = history sample_shelf.
Proof.
  apply (archive_then_delete sample_shelf sample_world (sample_tracker 7 None)
           sample_history eq_refl eq_refl).
  intros t [<-|[<-|[<-|[]]]]; discriminate.
Defined.

Lemma log_is_append_only_witness :
  exists st' w' x' extra,
    run [op_increment; op_decrement; op_decrement; op_archive; op_increment]
      (sample_active 7 None) sample_world = Some (st', w') /\
    tracked [] st' x' /\
    Tracker.logs x' = Tracker.logs (sample_tracker 7 None) ++ extra /\
    Tracker.id x' = Tracker.id (sample_tracker 7 None) /\
    Tracker.label x' = Tracker.label (sample_tracker 7 None) /\
    Tracker.target x' = Tracker.target (sample_tracker 7 None) /\
    Tracker.createdAt x' = Tracker.createdAt (sample_tracker 7 None).
Proof.
  apply (log_is_append_only _ (sample_active 7 None) sample_world []
           (sample_tracker 7 None)).
  left. split; reflexivity.
Defined.

Lemma log_accounts_for_counter_witness :
  exists st' w' x,
    (st1 <- handleCreate sample_form ;;
     run [op_increment; op_increment; op_decrement; op_increment; op_archive] st1)
      sample_world = Some (st', w') /\
    (live [] st' x \/ shelved [] st' x) /\
    ledger x.
Proof.
  apply (log_accounts_for_counter sample_form sample_world 20 []);
    [reflexivity|lia|cbn; lia|reflexivity].
Defined.

Lemma archived_is_final_witness :
  exists st1 w1,
    handleArchive sample_shelf sample_world = Some (st1, w1) /\
    run [op_increment; op_decrement; op_archive] st1 w1 = Some (st1, w1).
Proof.
  apply (archived_is_final sample_shelf sample_world (sample_tracker 7 None)
           (map of_Tracker sample_history)); reflexivity.
Defined.

Lemma created_label_is_trimmed_witness :
  exists st' w' x,
    handleCreate (setLabel (lit "  Laps ") sample_form) sample_world = Some (st', w') /\
    activeTracker st' = of_Tracker x /\
    Tracker.label x <> [] /\
    trim (Tracker.label x) = Tracker.label x.
Proof.
  destruct (created_label_is_trimmed (setLabel (lit "  Laps ") sample_form)
              sample_world 20 eq_refl)
    as (st' & w' & x & Hrun & Hx & Hne & Ht & _).
  - lia.
  - exists st', w', x. repeat (split; [assumption|]). assumption.
Defined.

Lemma increment_then_decrement_witness :
  exists st2 w2 x extra,
    (st1 <- handleIncrement (sample_active 19 None) ;; handleDecrement st1) sample_world
      = Some (st2, w2) /\
    activeTracker st2 = of_Tracker x /\
    Tracker.current x = 19 /\
    Tracker.target x = 20 /\
    Tracker.completedAt x = None /\
    Tracker.logs x = Tracker.logs (sample_tracker 19 None) ++ extra /\
    count_action increment extra = 1%nat /\
    count_action decrement extra = 1%nat.
Proof.
  apply (increment_then_decrement (sample_active 19 None) sample_world
           (sample_tracker 19 None) eq_refl); [cbn; lia|cbn; lia|reflexivity].
Defined.

Lemma increments_saturate_witness :
  exists st' w' x,
    times 5 handleIncrement (sample_active 18 None) sample_world = Some (st', w') /\
    activeTracker st' = of_Tracker x /\
    Tracker.target x = 20 /\
    Tracker.current x = 20 /\
    Tracker.completedAt x <> None /\
    map LogEntry.action (Tracker.logs x) = [created; increment; increment; completed].
Proof.
  apply (increments_saturate 5 (sample_active 18 None) sample_world
           (sample_tracker 18 None) eq_refl); cbn; lia.
Defined.

Lemma decrements_saturate_witness :
  exists st' w' x,
    times 5 handleDecrement (sample_active 3 None) sample_world = Some (st', w') /\
    activeTracker st' = of_Tracker x /\
    Tracker.target x = 20 /\
    Tracker.current x = 0 /\
    map LogEntry.action (Tracker.logs x) = [created; decrement; decrement; decrement].
Proof.
  apply (decrements_saturate 5 (sample_active 3 None) sample_world
           (sample_tracker 3 None) eq_refl). cbn. lia.
Defined.

Lemma loglist_window_witness :
  shown true None [1; 2; 3; 4; 5; 6; 7] = [1; 2; 3; 4; 5; 6; 7] /\
  shown false None [1; 2; 3; 4; 5; 6; 7] = [1; 2; 3; 4; 5] /\
  Z.of_nat (List.length (shown false None [1; 2; 3; 4; 5; 6; 7])) = 5 /\
  (hasToggle None [1; 2; 3; 4; 5; 6; 7] = true <->
   shown false None [1; 2; 3; 4; 5; 6; 7] <> [1; 2; 3; 4; 5; 6; 7]).
Proof.
  apply (loglist_window None [1; 2; 3; 4; 5; 6; 7]). cbn. lia.
Defined.



Lemma export_import_restores_state_witness :
  exists text,
    handleExport (setActiveTracker Undefined sample_form) = Some text /\
    ~ importFailed (processFile text sample_shelf) /\
    activeTracker (processFile text sample_shelf) = Undefined /\
    history (processFile text sample_shelf) = Arr [].
Proof.
  apply (export_import_restores_state (setActiveTracker Undefined sample_form)
           sample_shelf).
  - right. reflexivity.
  - exact I.
  - discriminate.
  - right. reflexivity.
Defined.
